(** * generate_multi_scale_samples.py: a shallow embedding

    The script parses its command line, builds and loads a generator, and then,
    [num_samples] times, draws a latent vector, runs the generator, upscales
    the multi-scale outputs to a common size, tiles them and writes a PNG.

    Python's effects are modelled by a state-and-exception monad over a
    [world]: the heap of list objects (lists are mutated in place), the state
    of the random number generator, the files written so far and the log of
    the calls made to the outside (printing, torch, torchvision, scipy).
    The libraries themselves are an interface ([Torch]); every statement
    below holds for each implementation of it. *)

From Stdlib Require Import ZArith List String Ascii Reals Lra Lia.
From Stdlib Require Import DecimalString DecimalZ DecimalNat DecimalFacts.
From stdpp Require Import gmap strings list fin_maps.

Open Scope Z_scope.

(** ** Exceptions and results *)

Inductive exn : Type :=
| IndexError
| ValueError
| LibraryError (what : string)     (* an error raised inside torch, torchvision or scipy *)
| IOError (path : string)
| SystemExit (code : Z).

Inductive result (A : Type) : Type :=
| Ok (a : A)
| Raise (e : exn).
Arguments Ok {A} a.
Arguments Raise {A} e.

(** ** Python primitives used by the script *)

(** [range(a, b)] *)
Definition py_range (a b : Z) : list Z :=
  (λ i : nat, a + Z.of_nat i) <$> seq 0 (Z.to_nat (b - a)).

(** [str(n)] and ["%d" % n] for an integer [n] *)
Definition py_str (n : Z) : string :=
  NilZero.string_of_int (Z.to_int n).

(** [pow(2, factor)] for the exponents the script uses ([factor >= 1]) *)
Definition py_pow2 (factor : Z) : Z := 2 ^ factor.

(** [int(ceil(sqrt(n)))] for a list length [n]: the least [k >= 0] with
    [n <= k * k] (see [ceil_sqrt_real] for the link with the real square
    root; the double-precision [sqrt] is exact enough for every
    [n < 2^52]). *)
Definition ceil_sqrt (n : Z) : Z := Z.sqrt_up n.

(** The index of a Python list access: [i] counts from the end when negative,
    and the access raises [IndexError] out of range. *)
Definition py_index {A} (l : list A) (i : Z) : result nat :=
  let n := Z.of_nat (length l) in
  if bool_decide (0 ≤ i < n) then Ok (Z.to_nat i)
  else if bool_decide (- n ≤ i < 0) then Ok (Z.to_nat (n + i))
  else Raise IndexError.

Definition ends_with_slash (s : string) : bool :=
  match last (String.list_ascii_of_string s) with
  | Some c => bool_decide (c = "/"%char)
  | None => false
  end.

Definition starts_with_slash (s : string) : bool :=
  match s with
  | String c _ => bool_decide (c = "/"%char)
  | EmptyString => false
  end.

(** [os.path.join(a, b)] (posixpath) *)
Definition os_path_join (a b : string) : string :=
  if starts_with_slash b then b
  else if bool_decide (a = ""%string) || ends_with_slash a then (a +:+ b)%string
  else (a +:+ "/" +:+ b)%string.

(** ** Command line (lines 22-56)

    [argparse] as the script configures it: six [store] options declared by
    [add_argument], the [-h]/[--help] option every parser has, no positional
    argument.  Long options may be abbreviated to an unambiguous prefix and
    may carry their value after an [=]. *)

Record Args : Type := {
  generator_file : string;
  latent_size : Z;
  depth : Z;
  num_samples : Z;
  num_columns : option Z;
  out_dir : string
}.

Inductive dest : Type :=
| DHelp | DGeneratorFile | DLatentSize | DDepth | DNumSamples | DNumColumns | DOutDir.

#[global] Instance dest_eq_dec : EqDecision dest.
Proof. solve_decision. Defined.

Definition option_strings : list (string * dest) :=
  [ ("-h", DHelp); ("--help", DHelp);
    ("--generator_file", DGeneratorFile);
    ("--latent_size", DLatentSize);
    ("--depth", DDepth);
    ("--num_samples", DNumSamples);
    ("--num_columns", DNumColumns);
    ("--out_dir", DOutDir) ]%string.

Inductive usage_error : Type :=
| AmbiguousOption (tok : string)
| ExpectedOneArgument (d : dest)
| InvalidIntValue (d : dest) (value : string)
| IgnoredExplicitArgument (value : string)
| RequiredMissing
| UnrecognizedArguments.

Inductive parse_result : Type :=
| Parsed (args : Args)
| UsageError (err : usage_error)      (* usage and message on stderr, exit status 2 *)
| HelpExit.                           (* help on stdout, exit status 0 *)

(** How argparse reads one command-line string on its own. *)
Inductive token_class : Type :=
| Positional
| Separator                          (* the string [--] *)
| Optional (option_string : string) (action : option dest) (explicit_arg : option string)
| Ambiguous.

Definition is_digit (c : ascii) : bool :=
  Ascii.leb "0" c && Ascii.leb c "9".

Fixpoint all_digits (s : string) : bool :=
  match s with
  | EmptyString => true
  | String c s' => is_digit c && all_digits s'
  end.

Definition digits1 (s : string) : bool :=
  negb (String.eqb s "") && all_digits s.

(** [s.split(c, 1)] when [c] occurs in [s] *)
Fixpoint split_once (c : ascii) (s : string) : option (string * string) :=
  match s with
  | EmptyString => None
  | String a s' =>
      if Ascii.eqb a c then Some (EmptyString, s')
      else match split_once c s' with
           | Some (l, r) => Some (String a l, r)
           | None => None
           end
  end.

Definition contains (c : ascii) (s : string) : bool :=
  match split_once c s with Some _ => true | None => false end.

Definition chomp (s : string) : string :=
  match split_once "010" s with
  | Some (l, EmptyString) => l
  | _ => s
  end.

(** argparse's pattern for negative numbers, [^-\d+$|^-\d*\.\d+$] *)
Definition negative_number (tok : string) : bool :=
  match chomp tok with
  | String "-" rest =>
      digits1 rest
      || match split_once "." rest with
         | Some (l, r) => all_digits l && digits1 r
         | None => false
         end
  | _ => false
  end.

Definition find_option (name : string) : option dest :=
  snd <$> List.find (λ o, String.eqb (fst o) name) option_strings.

(** [_get_option_tuples]: the declared options a string may abbreviate *)
Definition option_tuples (tok : string) : list (string * dest * option string) :=
  match tok with
  | String "-" (String "-" _) =>
      let '(option_prefix, explicit_arg) :=
        match split_once "=" tok with
        | Some (l, r) => (l, Some r)
        | None => (tok, None)
        end in
      (λ o, (fst o, snd o, explicit_arg))
        <$> List.filter (λ o, String.prefix option_prefix (fst o)) option_strings
  | String "-" (String c rest) =>
      let short_option_prefix := String "-" (String c EmptyString) in
      omap (λ o,
              if String.eqb (fst o) short_option_prefix
              then Some (fst o, snd o, Some rest)
              else if String.prefix tok (fst o)
                   then Some (fst o, snd o, None)
                   else None)
           option_strings
  | _ => []
  end.

(** [_parse_optional] *)
Definition classify (tok : string) : token_class :=
  match tok with
  | String "-" rest =>
      match find_option tok with
      | Some d => Optional tok (Some d) None
      | None =>
          if String.eqb rest "" then Positional
          else
            let by_equals :=
              match split_once "=" tok with
              | Some (l, r) =>
                  match find_option l with
                  | Some d => Some (Optional l (Some d) (Some r))
                  | None => None
                  end
              | None => None
              end in
            match by_equals with
            | Some c => c
            | None =>
                match option_tuples tok with
                | [(name, d, explicit_arg)] => Optional name (Some d) explicit_arg
                | _ :: _ :: _ => Ambiguous
                | [] =>
                    if negative_number tok then Positional
                    else if contains " " tok then Positional
                    else Optional tok None None
                end
            end
      end
  | _ => Positional
  end.

(** Every string after [--] is a positional. *)
Fixpoint classify_all (argv : list string) : list (string * token_class) :=
  match argv with
  | [] => []
  | tok :: rest =>
      if String.eqb tok "--"
      then (tok, Separator) :: ((λ t, (t, Positional)) <$> rest)
      else (tok, classify tok) :: classify_all rest
  end.

(** The namespace while parsing; [generator_file] has no default. *)
Record namespace : Type := {
  ns_generator_file : option string;
  ns_latent_size : Z;
  ns_depth : Z;
  ns_num_samples : Z;
  ns_num_columns : option Z;
  ns_out_dir : string
}.

Definition defaults : namespace :=
  {| ns_generator_file := None;
     ns_latent_size := 256;
     ns_depth := 6;
     ns_num_samples := 300;
     ns_num_columns := None;
     ns_out_dir := "interp_animation_frames/" |}.

Section Argparse.
(** [int(s)]: Python accepts a sign, surrounding blanks, underscores between
    digits and any Unicode decimal digit; the conversion is left open. *)
Variable py_int : string → option Z.

(** The [store] action with the option's [type].  (A value that is the bare
    string [--], as in [--depth=--], is outside this model: argparse removes
    it from the values of the option before converting them.) *)
Definition store (d : dest) (value : string) (ns : namespace) : usage_error + namespace :=
  let with_int (k : Z → namespace) :=
    match py_int value with
    | Some n => inr (k n)
    | None => inl (InvalidIntValue d value)
    end in
  match d with
  | DHelp => inr ns
  | DGeneratorFile =>
      inr {| ns_generator_file := Some value; ns_latent_size := ns_latent_size ns;
             ns_depth := ns_depth ns; ns_num_samples := ns_num_samples ns;
             ns_num_columns := ns_num_columns ns; ns_out_dir := ns_out_dir ns |}
  | DLatentSize =>
      with_int (λ n,
          {| ns_generator_file := ns_generator_file ns; ns_latent_size := n;
             ns_depth := ns_depth ns; ns_num_samples := ns_num_samples ns;
             ns_num_columns := ns_num_columns ns; ns_out_dir := ns_out_dir ns |})
  | DDepth =>
      with_int (λ n,
          {| ns_generator_file := ns_generator_file ns; ns_latent_size := ns_latent_size ns;
             ns_depth := n; ns_num_samples := ns_num_samples ns;
             ns_num_columns := ns_num_columns ns; ns_out_dir := ns_out_dir ns |})
  | DNumSamples =>
      with_int (λ n,
          {| ns_generator_file := ns_generator_file ns; ns_latent_size := ns_latent_size ns;
             ns_depth := ns_depth ns; ns_num_samples := n;
             ns_num_columns := ns_num_columns ns; ns_out_dir := ns_out_dir ns |})
  | DNumColumns =>
      with_int (λ n,
          {| ns_generator_file := ns_generator_file ns; ns_latent_size := ns_latent_size ns;
             ns_depth := ns_depth ns; ns_num_samples := ns_num_samples ns;
             ns_num_columns := Some n; ns_out_dir := ns_out_dir ns |})
  | DOutDir =>
      inr {| ns_generator_file := ns_generator_file ns; ns_latent_size := ns_latent_size ns;
             ns_depth := ns_depth ns; ns_num_samples := ns_num_samples ns;
             ns_num_columns := ns_num_columns ns; ns_out_dir := value |}
  end.

(** [-h] glued to more characters: each of them must be another [-h]. *)
Fixpoint help_chain (explicit_arg : string) : parse_result :=
  match explicit_arg with
  | EmptyString => UsageError (IgnoredExplicitArgument explicit_arg)
  | String c EmptyString =>
      if Ascii.eqb c "h" then HelpExit
      else UsageError (IgnoredExplicitArgument explicit_arg)
  | String c rest =>
      if Ascii.eqb c "h" then help_chain rest
      else UsageError (IgnoredExplicitArgument explicit_arg)
  end.

(** The end of parsing: required options, then left-over strings. *)
Definition finish (ns : namespace) (extras : bool) : parse_result :=
  match ns_generator_file ns with
  | None => UsageError RequiredMissing
  | Some file =>
      if extras then UsageError UnrecognizedArguments
      else Parsed {| generator_file := file;
                     latent_size := ns_latent_size ns;
                     depth := ns_depth ns;
                     num_samples := ns_num_samples ns;
                     num_columns := ns_num_columns ns;
                     out_dir := ns_out_dir ns |}
  end.

(** The strings are consumed from left to right; [extras] records that some
    string was left over.  An option without [=] takes the next string, which
    must read as a positional. *)
Fixpoint consume (toks : list (string * token_class)) (ns : namespace) (extras : bool)
  : parse_result :=
  match toks with
  | [] => finish ns extras
  | (_, Optional name (Some DHelp) (Some explicit_arg)) :: _ =>
      if String.prefix "--" name
      then UsageError (IgnoredExplicitArgument explicit_arg)
      else help_chain explicit_arg
  | (_, Optional _ (Some DHelp) None) :: _ => HelpExit
  | (_, Optional _ (Some d) (Some explicit_arg)) :: rest =>
      match store d explicit_arg ns with
      | inl err => UsageError err
      | inr ns' => consume rest ns' extras
      end
  | (_, Optional _ (Some d) None) :: rest =>
      match rest with
      | (value, Positional) :: rest' =>
          match store d value ns with
          | inl err => UsageError err
          | inr ns' => consume rest' ns' extras
          end
      | _ => UsageError (ExpectedOneArgument d)
      end
  | _ :: rest => consume rest ns true
  end.

(** [parser.parse_args()]: every string is classified first (an ambiguous
    abbreviation is an error wherever it stands), then the strings are
    consumed. *)
Definition parse_args (argv : list string) : parse_result :=
  let toks := classify_all argv in
  match List.find (λ t, match snd t with Ambiguous => true | _ => false end) toks with
  | Some (tok, _) => UsageError (AmbiguousOption tok)
  | None => consume toks defaults false
  end.

End Argparse.

(** ** The libraries *)

(** What the script needs from torch, torchvision, scipy and MSG_GAN.
    A latent tensor of shape (1, n) is the list of its n entries. *)
Class Torch : Type := {
  tensor : Type;
  shape : tensor → list Z;
  (* interpolate(x, scale_factor=s) *)
  interpolate : tensor → Z → result tensor;
  (* th.squeeze(x, dim=0) *)
  squeeze0 : tensor → tensor;
  (* make_grid(xs, nrow=n, normalize=True, scale_each=True) *)
  make_grid : list tensor → Z → result tensor;
  (* x.permute(1, 2, 0).cpu() *)
  permute_cpu : tensor → result tensor;
  rng_state : Type;
  (* th.randn(1, n) *)
  randn : Z → rng_state → result (list R) * rng_state;
  generator : Type;
  (* th.nn.DataParallel(Generator(depth=d, latent_size=n)) *)
  Generator : Z → Z → result generator;
  (* gen.load_state_dict(th.load(file)) *)
  load_state_dict : generator → string → result generator;
  (* gen(points) *)
  forward : generator → list R → result (list tensor);
  (* whether scipy's imsave can create the file *)
  writable : string → bool;
  (* the arithmetic of line 103 on 32-bit floats, entry by entry:
     x / y for a tensor divided by a tensor, x * s for a tensor times a
     Python float, and points.norm() *)
  tensor_div : R → R → R;
  tensor_mul : R → R → R;
  tensor_norm : list R → R;
  (* math.sqrt(n) for an integer n >= 0: a 64-bit float *)
  math_sqrt : Z → R
}.

(** ** The world *)

Abbreviation loc := positive.

Inductive event `{Torch} : Type :=
| EPrint (line : string)
| EArgparseError (err : usage_error)   (* usage and error message, on stderr *)
| EArgparseHelp                        (* the help text, on stdout *)
| EConstruct (depth latent_size : Z)
| ELoad (file : string)
| EDraw (n : Z)
| EInfer (points : list R)
| EInterpolate (x : tensor) (scale : Z)
| EMakeGrid (xs : list tensor) (nrow : Z)
| EWrite (path : string) (img : tensor).

Record world `{Torch} : Type := World {
  heap : gmap loc (list tensor);
  rng : rng_state;
  files : gmap string tensor;
  trace : list event
}.
Arguments World {_} heap rng files trace.

(** ** The state and exception monad: an exception keeps the effects made
    before it was raised. *)

Definition M `{Torch} (A : Type) : Type := world → result A * world.

#[global] Instance M_ret `{Torch} : MRet M := λ A a w, (Ok a, w).
#[global] Instance M_bind `{Torch} : MBind M := λ A B f m w,
  match m w with
  | (Ok a, w') => f a w'
  | (Raise e, w') => (Raise e, w')
  end.

Section Script.
Context `{Torch}.

Definition raise {A} (e : exn) : M A := λ w, (Raise e, w).

Definition lift {A} (r : result A) : M A := λ w, (r, w).

Definition log (ev : event) : M unit := λ w,
  (Ok (), World (heap w) (rng w) (files w) (trace w ++ [ev])).

(** [for x in xs: body(x)] *)
Fixpoint for_each {A} (xs : list A) (body : A → M unit) : M unit :=
  match xs with
  | [] => mret ()
  | x :: xs' => body x ;; for_each xs' body
  end.

(** *** List objects *)

Definition new_list (l : list tensor) : M loc := λ w,
  let ℓ := fresh (dom (heap w)) in
  (Ok ℓ, World (<[ℓ := l]> (heap w)) (rng w) (files w) (trace w)).

(** A name always refers to a list in Python; the error stands for a
    location that was never allocated. *)
Definition read_list (ℓ : loc) : M (list tensor) := λ w,
  match heap w !! ℓ with
  | Some l => (Ok l, w)
  | None => (Raise (LibraryError "dangling reference"), w)
  end.

Definition write_list (ℓ : loc) (l : list tensor) : M unit := λ w,
  (Ok (), World (<[ℓ := l]> (heap w)) (rng w) (files w) (trace w)).

(** [len(images)] *)
Definition len (ℓ : loc) : M Z :=
  l ← read_list ℓ; mret (Z.of_nat (length l)).

(** [images[i]] *)
Definition getitem (ℓ : loc) (i : Z) : M tensor :=
  l ← read_list ℓ;
  k ← lift (py_index l i);
  match l !! k with
  | Some x => mret x
  | None => raise IndexError
  end.

(** [images[i] = x] *)
Definition setitem (ℓ : loc) (i : Z) (x : tensor) : M unit :=
  l ← read_list ℓ;
  k ← lift (py_index l i);
  write_list ℓ (<[k := x]> l).

(** *** Calls to the libraries *)

Definition call_interpolate (x : tensor) (scale : Z) : M tensor :=
  log (EInterpolate x scale) ;; lift (interpolate x scale).

(** ** progressive_upscaling (lines 59-72)

    [th.no_grad()] only switches gradient tracking off and has no effect
    on the values. *)

(** The assignment of lines 67-70: the right-hand side is evaluated first,
    then the index of the target. *)
Definition upscale_body (images : loc) (factor : Z) : M unit :=
  n1 ← len images;
  x ← getitem images (n1 - 1 - factor);
  y ← call_interpolate x (py_pow2 factor);
  n2 ← len images;
  setitem images (n2 - 1 - factor) y.

Definition progressive_upscaling (images : loc) : M loc :=
  n ← len images;
  for_each (py_range 1 n) (upscale_body images) ;;
  mret images.

(** *** The sampler's arithmetic (line 103) *)

Definition sum_squares (v : list R) : R :=
  foldr (λ x acc, x * x + acc)%R 0%R v.

(** The Euclidean norm of a vector, over the reals. *)
Definition norm (v : list R) : R := sqrt (sum_squares v).

(** [math.sqrt(n)] for an integer [n] *)
Definition py_sqrt (n : Z) : result R :=
  if bool_decide (n < 0) then Raise ValueError else Ok (math_sqrt n).

(** [(points / points.norm()) * s]: the norm is computed once, every entry
    is divided by it, and every quotient is multiplied by [s]; each step
    gives a float. *)
Definition rescale (points : list R) (s : R) : list R :=
  (λ x, tensor_mul (tensor_div x (tensor_norm points)) s) <$> points.

(** *** Calls with an effect *)

Definition print (line : string) : M unit := log (EPrint line).

Definition call_randn (n : Z) : M (list R) := λ w,
  let '(r, g) := randn n (rng w) in
  (r, World (heap w) g (files w) (trace w ++ [EDraw n])).

(** [Generator(depth, latent_size)].  The state of the random number
    generator is followed through [th.randn] only: what the constructor
    draws for the initial weights is not. *)
Definition call_Generator (d n : Z) : M generator :=
  log (EConstruct d n) ;; lift (Generator d n).

Definition call_load_state_dict (gen : generator) (file : string) : M generator :=
  log (ELoad file) ;; lift (load_state_dict gen file).

(** [gen(points)]: the images come back in a new list. *)
Definition call_gen (gen : generator) (points : list R) : M loc :=
  log (EInfer points) ;;
  imgs ← lift (forward gen points);
  new_list imgs.

(** [list(map(lambda x: th.squeeze(x, dim=0), ss_images))]: a new list. *)
Definition squeeze_all (ss_images : loc) : M loc :=
  l ← read_list ss_images;
  new_list (squeeze0 <$> l).

Definition call_make_grid (ss_images : loc) (nrow : Z) : M tensor :=
  l ← read_list ss_images;
  log (EMakeGrid l nrow) ;;
  lift (make_grid l nrow).

(** [imsave(path, img)]: the file is written, or nothing is. *)
Definition imsave (path : string) (img : tensor) : M unit := λ w,
  if writable path
  then (Ok (), World (heap w) (rng w) (<[path := img]> (files w))
                     (trace w ++ [EWrite path img]))
  else (Raise (IOError path), w).

(** ** What progressive_upscaling is expected to do *)

(** What the function does to the image at index [i] of a list of
    length [n]: every image but the last is upscaled by [2^(n-1-i)]. *)
Definition upscale_one (n i : nat) (x : tensor) : result tensor :=
  if decide (i < n - 1)%nat then interpolate x (2 ^ Z.of_nat (n - 1 - i)) else Ok x.

(** The calls it makes to [interpolate], in order: for [factor] from 1 to
    [n-1], the image at index [n-1-factor] with scale [2^factor]. *)
Definition upscale_calls (l : list tensor) : list event :=
  omap (λ factor : nat,
          (λ x, EInterpolate x (2 ^ Z.of_nat factor)) <$> l !! (length l - 1 - factor)%nat)
       (seq 1 (length l - 1)).

(** ** main (lines 75-129) *)

Definition sample_path (save_path : string) (img_num : Z) : string :=
  os_path_join save_path (py_str img_num +:+ ".png").

(** Lines 102-103: the latent point. *)
Definition sample_latent (args : Args) : M (list R) :=
  points ← call_randn (latent_size args);
  s ← lift (py_sqrt (latent_size args));
  mret (rescale points s).

(** Lines 116-123: the grid; the images are counted only when no column
    count was configured. *)
Definition compose_grid (args : Args) (ss_images : loc) : M tensor :=
  num_cols ← match num_columns args with
              | None => n ← len ss_images; mret (ceil_sqrt n)
              | Some c => mret c
              end;
  call_make_grid ss_images num_cols.

(** Lines 100-123 and the second argument of [imsave] (line 127): the
    composed grid, channel-last and on the host. *)
Definition render (args : Args) (gen : generator) : M tensor :=
  points ← sample_latent args;
  ss_images ← call_gen gen points;
  ss_images ← progressive_upscaling ss_images;
  ss_images ← squeeze_all ss_images;
  ss_image ← compose_grid args ss_images;
  lift (permute_cpu ss_image).

(** The body of the sample loop (lines 100-127). *)
Definition sample_iteration (args : Args) (gen : generator) (save_path : string)
    (img_num : Z) : M unit :=
  img ← render args gen;
  imsave (sample_path save_path img_num) img.

(** Lines 99-127; [tqdm] only draws a progress bar. *)
Definition sample_loop (args : Args) (gen : generator) (save_path : string) : M unit :=
  for_each (py_range 1 (num_samples args + 1)) (sample_iteration args gen save_path).

Definition summary (args : Args) (save_path : string) : string :=
  "Generated " +:+ py_str (num_samples args) +:+ " images at " +:+ save_path.

(** Lines 82-93: the generator with its trained weights. *)
Definition load_generator (args : Args) : M generator :=
  print "Creating generator object ..." ;;
  gen ← call_Generator (depth args) (latent_size args);
  print ("Loading the generator weights from: " +:+ generator_file args) ;;
  call_load_state_dict gen (generator_file args).

Definition main (args : Args) : M unit :=
  gen ← load_generator args;
  let save_path := out_dir args in
  print "Generating scale synchronized images ..." ;;
  sample_loop args gen save_path ;;
  print (summary args save_path).

(** ** The script (lines 132-133): [main(parse_arguments())] *)

Definition parse_arguments (py_int : string → option Z) (argv : list string) : M Args :=
  match parse_args py_int argv with
  | Parsed args => mret args
  | UsageError err => log (EArgparseError err) ;; raise (SystemExit 2)
  | HelpExit => log EArgparseHelp ;; raise (SystemExit 0)
  end.

Definition script (py_int : string → option Z) (argv : list string) : M unit :=
  args ← parse_arguments py_int argv;
  main args.

End Script.

(** ** What the script relies on from torch *)

(** [y] is within a relative error [u] of [x]: what one floating-point
    operation rounded to nearest gives for its exact result, with [u = 2^-24]
    on 32-bit floats and [u = 2^-53] on 64-bit floats, as long as the result
    neither underflows nor overflows. *)
Definition within (u x y : R) : Prop := (Rabs (y - x) <= u * Rabs x)%R.

Definition scale_by (k : Z) (r : list Z) : list Z := Z.mul k <$> r.

(** [interpolate] multiplies the spatial extents (everything after the batch
    and channel dimensions) by an integer scale factor, for one to three
    spatial dimensions; [squeeze] drops a leading dimension of size one. *)
Class TorchLaws `{Torch} : Prop := {
  interpolate_defined : ∀ x s n c r,
    shape x = n :: c :: r → (1 ≤ length r ≤ 3)%nat → Forall (Z.lt 0) r → 0 < s →
    ∃ y, interpolate x s = Ok y;
  interpolate_shape : ∀ x s y n c r,
    shape x = n :: c :: r → interpolate x s = Ok y →
    shape y = n :: c :: scale_by s r;
  squeeze0_shape : ∀ x,
    shape (squeeze0 x) = match shape x with 1 :: rest => rest | sh => sh end
}.

(** The column count of a grid of [n] images. *)
Definition grid_columns (configured : option Z) (n : Z) : Z :=
  match configured with
  | None => ceil_sqrt n
  | Some c => c
  end.

(** An image of spatial resolution [r] (height and width, say). *)
Definition has_resolution `{Torch} (x : tensor) (r : list Z) : Prop :=
  ∃ n c, shape x = n :: c :: r.

(** The paths of the files written, in the order of writing. *)
Definition written `{Torch} (tr : list event) : list string :=
  omap (λ ev, match ev with EWrite path _ => Some path | _ => None end) tr.

(** A computation that writes no file, whatever its outcome. *)
Definition quiet `{Torch} {A} (m : M A) : Prop :=
  ∀ w r w', m w = (r, w') →
    files w' = files w ∧ written (trace w') = written (trace w).






(** A conversion for the examples: plain decimal numerals, with an optional
    minus sign. *)
Definition int_of_decimal (s : string) : option Z :=
  Z.of_int <$> NilZero.int_of_string s.

(** The command-line string [tok] selects the option [d]. *)
Definition names (d : dest) (tok : string) : bool :=
  match classify tok with
  | Optional _ (Some d') _ => bool_decide (d' = d)
  | _ => false
  end.

(** ** The libraries on shapes

    A tensor is its shape; the generator returns [depth] batched RGB images
    of sides 4, 8, 16, ...; the files listed in [readonly] cannot be
    written; the arithmetic of the sampler is exact. *)
Module ShapeModel.

Definition interpolate_impl (x : list Z) (s : Z) : result (list Z) :=
  match x with
  | n :: c :: r =>
      if bool_decide (1 ≤ length r ≤ 3)%nat && forallb (Z.ltb 0) r && (0 <? s)
      then Ok (n :: c :: scale_by s r)
      else Raise (LibraryError "interpolate")
  | _ => Raise (LibraryError "interpolate")
  end.

Definition squeeze0_impl (x : list Z) : list Z :=
  match x with
  | 1 :: rest => rest
  | _ => x
  end.

Definition same_shape (x y : list Z) : bool := bool_decide (x = y).

Definition make_grid_impl (xs : list (list Z)) (nrow : Z) : result (list Z) :=
  match xs with
  | [c; h; w] :: rest =>
      if forallb (same_shape [c; h; w]) rest && (0 <? nrow)
      then
        let channels := if c =? 1 then 3 else c in
        let nmaps := Z.of_nat (length xs) in
        if nmaps =? 1 then Ok [channels; h; w]
        else
          let xmaps := Z.min nrow nmaps in
          let ymaps := (nmaps + xmaps - 1) / xmaps in
          Ok [channels; (h + 2) * ymaps + 2; (w + 2) * xmaps + 2]
      else Raise (LibraryError "make_grid")
  | _ => Raise (LibraryError "make_grid")
  end.

Definition permute_cpu_impl (x : list Z) : result (list Z) :=
  match x with
  | [c; h; w] => Ok [h; w; c]
  | _ => Raise (LibraryError "permute")
  end.

Definition randn_impl (n : Z) (g : nat) : result (list R) * nat :=
  if n <? 0 then (Raise (LibraryError "randn"), g)
  else (Ok (repeat 1%R (Z.to_nat n)), S g).

Definition Generator_impl (d n : Z) : result Z :=
  if (1 <=? d) && (1 <=? n) then Ok d else Raise (LibraryError "Generator").

Definition load_state_dict_impl (gen : Z) (file : string) : result Z :=
  if String.eqb file "" then Raise (IOError file) else Ok gen.

Definition forward_impl (gen : Z) (points : list R) : result (list (list Z)) :=
  Ok ((λ i : nat, [1; 3; 4 * 2 ^ Z.of_nat i; 4 * 2 ^ Z.of_nat i]) <$> seq 0 (Z.to_nat gen)).

Definition writable_impl (readonly : list string) (path : string) : bool :=
  negb (existsb (String.eqb path) readonly).

#[export] Instance torch (readonly : list string) : Torch := {|
  tensor := list Z;
  shape := λ x, x;
  interpolate := interpolate_impl;
  squeeze0 := squeeze0_impl;
  make_grid := make_grid_impl;
  permute_cpu := permute_cpu_impl;
  rng_state := nat;
  randn := randn_impl;
  generator := Z;
  Generator := Generator_impl;
  load_state_dict := load_state_dict_impl;
  forward := forward_impl;
  writable := writable_impl readonly;
  tensor_div := Rdiv;
  tensor_mul := Rmult;
  tensor_norm := norm;
  math_sqrt := λ n, sqrt (IZR n)
|}.

Definition empty_world (readonly : list string) : @world (torch readonly) :=
  @World (torch readonly) ∅ 0%nat ∅ [].

End ShapeModel.

(** *** Sample data on the shape model *)

Section Samples.
Import ShapeModel.

Definition three_scales : list (list Z) :=
  [[1; 3; 4; 4]; [1; 3; 8; 8]; [1; 3; 16; 16]].

Definition three_synchronized : list (list Z) :=
  [[1; 3; 16; 16]; [1; 3; 16; 16]; [1; 3; 16; 16]].

Definition world_with (l : list (list Z)) : @world (torch []) :=
  @World (torch []) {[1%positive := l]} 0%nat ∅ [].

Definition sample_args : Args :=
  {| generator_file := "GAN_GEN_5.pth";
     latent_size := 2;
     depth := 3;
     num_samples := 2;
     num_columns := None;
     out_dir := "out/" |}.

Definition idle_args : Args :=
  {| generator_file := "GAN_GEN_5.pth";
     latent_size := 2;
     depth := 3;
     num_samples := -1;
     num_columns := None;
     out_dir := "out/" |}.

End Samples.

(** ** Further notions used to describe the runs *)

(** The calls to [interpolate] of [n] consecutive factors from [a] on. *)
Definition upscale_calls_from `{Torch} (l : list tensor) (a n : nat) : list event :=
  omap (λ factor : nat,
          (λ x, EInterpolate x (2 ^ Z.of_nat factor)) <$> l !! (length l - 1 - factor)%nat)
       (seq a n).

Definition is_draw `{Torch} (ev : event) : bool :=
  match ev with EDraw _ => true | _ => false end.

Definition is_infer `{Torch} (ev : event) : bool :=
  match ev with EInfer _ => true | _ => false end.

Definition is_interpolate `{Torch} (ev : event) : bool :=
  match ev with EInterpolate _ _ => true | _ => false end.

Definition is_make_grid `{Torch} (ev : event) : bool :=
  match ev with EMakeGrid _ _ => true | _ => false end.

(** How many events of a kind a log holds. *)
Definition count_events `{Torch} (kind : event → bool) (tr : list event) : nat :=
  length (List.filter kind tr).

(** The heap after an iteration: the upscaled images and the squeezed ones,
    in two new lists. *)
Definition heap_after `{Torch} (h : gmap loc (list tensor)) (ys : list tensor)
  : gmap loc (list tensor) :=
  <[fresh (dom (<[fresh (dom h) := ys]> h)) := squeeze0 <$> ys]>
    (<[fresh (dom h) := ys]> h).

(** The log of a completed iteration up to the grid. *)
Definition render_events `{Torch} (args : Args) (points : list R)
    (imgs ys : list tensor) : list event :=
  [EDraw (latent_size args); EInfer points]
  ++ upscale_calls imgs
  ++ [EMakeGrid (squeeze0 <$> ys)
        (grid_columns (num_columns args) (Z.of_nat (length imgs)))].

(** The world [w] with more events in its log. *)
Definition logged `{Torch} (w : world) (evs : list event) : world :=
  World (heap w) (rng w) (files w) (trace w ++ evs).

(** What loading the generator logs: up to the construction, and up to the
    loading of the weights. *)
Definition construct_events `{Torch} (args : Args) : list event :=
  [ EPrint "Creating generator object ...";
    EConstruct (depth args) (latent_size args) ].

Definition load_events `{Torch} (args : Args) : list event :=
  construct_events args
  ++ [ EPrint ("Loading the generator weights from: " +:+ generator_file args);
       ELoad (generator_file args) ].

(** A computation that leaves every list object that exists when it starts
    as it is, whatever its outcome. *)
Definition keeps_lists `{Torch} {A} (m : M A) : Prop :=
  ∀ w r w', m w = (r, w') → heap w ⊆ heap w'.

(** What [main] has logged when it fails to set the generator up. *)
Definition setup_events `{Torch} (args : Args) : list event :=
  match Generator (depth args) (latent_size args) with
  | Raise _ => construct_events args
  | Ok _ => load_events args
  end.

(** argparse's test for an ambiguous abbreviation. *)
Definition is_ambiguous (t : string * token_class) : bool :=
  match snd t with Ambiguous => true | _ => false end.

(** The long options with the length of the shortest prefix that only they
    extend: [--num_samples] and [--num_columns] share [--num_]. *)
Definition abbreviations : list (string * nat) :=
  [ ("--generator_file", 3); ("--latent_size", 3); ("--depth", 3);
    ("--num_samples", 7); ("--num_columns", 7); ("--out_dir", 3);
    ("--help", 3) ]%string%nat.

(** The lines printed, in order. *)
Definition printed `{Torch} (tr : list event) : list string :=
  omap (λ ev, match ev with EPrint line => Some line | _ => None end) tr.

(** A computation that prints nothing, whatever its outcome. *)
Definition silent `{Torch} {A} (m : M A) : Prop :=
  ∀ w r w', m w = (r, w') → printed (trace w') = printed (trace w).

(** The four messages of [main]. *)
Definition messages (args : Args) : list string :=
  [ "Creating generator object ...";
    "Loading the generator weights from: " +:+ generator_file args;
    "Generating scale synchronized images ...";
    summary args (out_dir args) ]%string.

(** Why an iteration that starts in the world [w] raises [e]: the first of
    its calls that fails, on the arguments the iteration gave it, after the
    calls before it returned. *)
Inductive iteration_failure `{Torch} (args : Args) (gen : generator)
    (save_path : string) (img_num : Z) (w : world) (e : exn) : Prop :=
| DrawFailed g :
    randn (latent_size args) (rng w) = (Raise e, g) →
    iteration_failure args gen save_path img_num w e
| SqrtFailed v g :
    randn (latent_size args) (rng w) = (Ok v, g) →
    latent_size args < 0 →
    e = ValueError →
    iteration_failure args gen save_path img_num w e
| InferenceFailed v g :
    randn (latent_size args) (rng w) = (Ok v, g) →
    0 ≤ latent_size args →
    forward gen (rescale v (math_sqrt (latent_size args))) = Raise e →
    iteration_failure args gen save_path img_num w e
| InterpolateFailed v g imgs (factor : nat) x :
    randn (latent_size args) (rng w) = (Ok v, g) →
    0 ≤ latent_size args →
    forward gen (rescale v (math_sqrt (latent_size args))) = Ok imgs →
    (1 ≤ factor ≤ length imgs - 1)%nat →
    (∀ f, (1 ≤ f < factor)%nat →
       ∃ x' y', imgs !! (length imgs - 1 - f)%nat = Some x'
                ∧ interpolate x' (2 ^ Z.of_nat f) = Ok y') →
    imgs !! (length imgs - 1 - factor)%nat = Some x →
    interpolate x (2 ^ Z.of_nat factor) = Raise e →
    iteration_failure args gen save_path img_num w e
| MakeGridFailed v g imgs ys :
    randn (latent_size args) (rng w) = (Ok v, g) →
    0 ≤ latent_size args →
    forward gen (rescale v (math_sqrt (latent_size args))) = Ok imgs →
    length ys = length imgs →
    (∀ i x y, imgs !! i = Some x → ys !! i = Some y →
       upscale_one (length imgs) i x = Ok y) →
    make_grid (squeeze0 <$> ys)
      (grid_columns (num_columns args) (Z.of_nat (length imgs))) = Raise e →
    iteration_failure args gen save_path img_num w e
| PermuteFailed v g imgs ys grid :
    randn (latent_size args) (rng w) = (Ok v, g) →
    0 ≤ latent_size args →
    forward gen (rescale v (math_sqrt (latent_size args))) = Ok imgs →
    length ys = length imgs →
    (∀ i x y, imgs !! i = Some x → ys !! i = Some y →
       upscale_one (length imgs) i x = Ok y) →
    make_grid (squeeze0 <$> ys)
      (grid_columns (num_columns args) (Z.of_nat (length imgs))) = Ok grid →
    permute_cpu grid = Raise e →
    iteration_failure args gen save_path img_num w e
| SaveFailed v g imgs ys grid img :
    randn (latent_size args) (rng w) = (Ok v, g) →
    0 ≤ latent_size args →
    forward gen (rescale v (math_sqrt (latent_size args))) = Ok imgs →
    length ys = length imgs →
    (∀ i x y, imgs !! i = Some x → ys !! i = Some y →
       upscale_one (length imgs) i x = Ok y) →
    make_grid (squeeze0 <$> ys)
      (grid_columns (num_columns args) (Z.of_nat (length imgs))) = Ok grid →
    permute_cpu grid = Ok img →
    writable (sample_path save_path img_num) = false →
    e = IOError (sample_path save_path img_num) →
    iteration_failure args gen save_path img_num w e.

(** *** More sample data on the shape model *)

(** A list whose first element is no image: [interpolate] rejects it. *)
Definition broken_scales : list (list Z) :=
  [[7]; [1; 3; 8; 8]; [1; 3; 16; 16]].

(** Arguments that name no file of weights, and arguments with a negative
    latent size. *)
Definition unloadable_args : Args :=
  {| generator_file := "";
     latent_size := 2;
     depth := 3;
     num_samples := 2;
     num_columns := None;
     out_dir := "out/" |}.

Definition negative_args : Args :=
  {| generator_file := "GAN_GEN_5.pth";
     latent_size := -2;
     depth := 3;
     num_samples := 2;
     num_columns := None;
     out_dir := "out/" |}.

(** *** A sampler that rounds

    The shape model with a sampler none of whose operations is exact: each
    result is off by one part in [2^24], the unit roundoff of 32-bit
    floats. *)
Definition round_away (x : R) : R := (x * (1 + / 16777216))%R.

Definition rounding_torch : Torch := {|
  tensor := list Z;
  shape := λ x, x;
  interpolate := ShapeModel.interpolate_impl;
  squeeze0 := ShapeModel.squeeze0_impl;
  make_grid := ShapeModel.make_grid_impl;
  permute_cpu := ShapeModel.permute_cpu_impl;
  rng_state := nat;
  randn := ShapeModel.randn_impl;
  generator := Z;
  Generator := ShapeModel.Generator_impl;
  load_state_dict := ShapeModel.load_state_dict_impl;
  forward := ShapeModel.forward_impl;
  writable := λ _, true;
  tensor_div := λ x y, round_away (x / y);
  tensor_mul := λ x s, round_away (x * s);
  tensor_norm := λ v, round_away (norm v);
  math_sqrt := λ n, round_away (sqrt (IZR n))
|}.

(** * Properties *)

(** ** The model on a few inputs *)

Section Examples.
Import ShapeModel.

Example py_range_1_4 : py_range 1 4 = [1; 2; 3].
Proof. reflexivity. Qed.

Example py_str_12 : py_str 12 = "12"%string ∧ py_str (-3) = "-3"%string ∧ py_str 0 = "0"%string.
Proof. repeat split. Qed.

Example os_path_join_default :
  os_path_join "interp_animation_frames/" "1.png" = "interp_animation_frames/1.png"%string
  ∧ os_path_join "frames" "1.png" = "frames/1.png"%string
  ∧ os_path_join "" "1.png" = "1.png"%string.
Proof. repeat split. Qed.

Example ceil_sqrt_values :
  ceil_sqrt <$> [0; 1; 2; 4; 5; 6; 9; 10] = [0; 1; 2; 2; 3; 3; 3; 4].
Proof. reflexivity. Qed.

Example parse_defaults :
  parse_args int_of_decimal ["--generator_file"; "GAN_GEN_5.pth"]%string
  = Parsed {| generator_file := "GAN_GEN_5.pth"; latent_size := 256; depth := 6;
              num_samples := 300; num_columns := None;
              out_dir := "interp_animation_frames/" |}.
Proof. reflexivity. Qed.

Example parse_abbreviated :
  parse_args int_of_decimal ["--gen=g.pth"; "--num_s"; "2"; "--num_c=4"]%string
  = Parsed {| generator_file := "g.pth"; latent_size := 256; depth := 6;
              num_samples := 2; num_columns := Some 4;
              out_dir := "interp_animation_frames/" |}.
Proof. reflexivity. Qed.

Example parse_errors :
  parse_args int_of_decimal [] = UsageError RequiredMissing
  ∧ parse_args int_of_decimal ["--depth"; "six"]%string
    = UsageError (InvalidIntValue DDepth "six")
  ∧ parse_args int_of_decimal ["--generator_file"; "g.pth"; "--n"; "3"]%string
    = UsageError (AmbiguousOption "--n")
  ∧ parse_args int_of_decimal ["--generator_file"; "g.pth"; "frames"]%string
    = UsageError UnrecognizedArguments
  ∧ parse_args int_of_decimal ["--help"]%string = HelpExit.
Proof. repeat split. Qed.

Example names_generator_file :
  names DGeneratorFile <$> ["--generator_file"; "--gen=g.pth"; "--g"; "--depth"; "g.pth"]%string
  = [true; true; true; false; false].
Proof. reflexivity. Qed.

Example one_iteration_files :
  map_to_list (files (snd (sample_iteration (H := torch []) sample_args 3 "out/" 1
                             (empty_world []))))
  = [("out/1.png"%string, [38; 38; 3])].
Proof. vm_compute. reflexivity. Qed.

End Examples.

(** ** Running the monad *)

Section Runs.
Context `{Torch}.

Lemma world_eta (w : world) :
  World (heap w) (rng w) (files w) (trace w) = w.
Proof. by destruct w. Qed.

Lemma bind_run {A B} (m : M A) (f : A → M B) w a w1 :
  m w = (Ok a, w1) → (m ≫= f) w = f a w1.
Proof. intros Hm. unfold mbind, M_bind. by rewrite Hm. Qed.

Lemma bind_raise {A B} (m : M A) (f : A → M B) w e w1 :
  m w = (Raise e, w1) → (m ≫= f) w = (Raise e, w1).
Proof. intros Hm. unfold mbind, M_bind. by rewrite Hm. Qed.

Lemma bind_eq {A B} (m : M A) (f : A → M B) w r w1 :
  m w = (r, w1) →
  (m ≫= f) w = match r with Ok a => f a w1 | Raise e => (Raise e, w1) end.
Proof. intros Hm. unfold mbind, M_bind. by rewrite Hm. Qed.

Lemma bind_inv {A B} (m : M A) (f : A → M B) w r w' :
  (m ≫= f) w = (r, w') →
  (∃ a w1, m w = (Ok a, w1) ∧ f a w1 = (r, w'))
  ∨ (∃ e, m w = (Raise e, w') ∧ r = Raise e).
Proof.
  unfold mbind, M_bind. destruct (m w) as [[a|e] w1]; intros Hr.
  - left. by exists a, w1.
  - right. exists e. by inversion Hr.
Qed.

Lemma for_each_app {A} (xs ys : list A) (body : A → M unit) w w1 :
  for_each xs body w = (Ok (), w1) →
  for_each (xs ++ ys) body w = for_each ys body w1.
Proof.
  revert w. induction xs as [|x xs IH]; intros w; simpl.
  - by intros [= ->].
  - intros Hr. apply bind_inv in Hr as [(a & w2 & Hx & Hr)|(e & _ & ?)]; [|done].
    rewrite (bind_run _ _ _ _ _ Hx). by apply IH.
Qed.

Lemma for_each_raise {A} (xs ys : list A) (body : A → M unit) x w w1 e w2 :
  for_each xs body w = (Ok (), w1) →
  body x w1 = (Raise e, w2) →
  for_each (xs ++ x :: ys) body w = (Raise e, w2).
Proof.
  intros Hxs Hx. rewrite (for_each_app _ _ _ _ _ Hxs). simpl.
  by apply bind_raise.
Qed.

Lemma py_range_length a b : length (py_range a b) = Z.to_nat (b - a).
Proof. unfold py_range. by rewrite length_fmap, length_seq. Qed.

Lemma py_range_nil a b : b ≤ a → py_range a b = [].
Proof. intros Hle. unfold py_range. by replace (Z.to_nat (b - a)) with 0%nat by lia. Qed.

Lemma py_range_cons a b : a < b → py_range a b = a :: py_range (a + 1) b.
Proof.
  intros Hlt. unfold py_range.
  replace (Z.to_nat (b - a)) with (S (Z.to_nat (b - (a + 1)))) by lia.
  simpl. f_equal; [lia|].
  rewrite <- fmap_S_seq, <- list_fmap_compose.
  apply list_fmap_ext. intros _ i _. simpl. lia.
Qed.

Lemma py_range_split a k b :
  a ≤ k ≤ b → py_range a b = py_range a k ++ py_range k b.
Proof.
  intros [Hak Hkb]. remember (Z.to_nat (k - a)) as n eqn:Hn.
  revert a Hak Hn. induction n as [|n IH]; intros a Hak Hn.
  - replace k with a by lia. by rewrite (py_range_nil a a).
  - rewrite (py_range_cons a b), (py_range_cons a k) by lia.
    simpl. f_equal. apply IH; lia.
Qed.

Lemma elem_of_py_range i a b : i ∈ py_range a b ↔ a ≤ i < b.
Proof.
  unfold py_range. rewrite list_elem_of_fmap. split.
  - intros (k & -> & Hk). apply elem_of_seq in Hk. lia.
  - intros Hi. exists (Z.to_nat (i - a)). split; [lia|].
    apply elem_of_seq. lia.
Qed.

Lemma py_index_in_range {A} (l : list A) (k : nat) :
  (k < length l)%nat → py_index l (Z.of_nat k) = Ok k.
Proof.
  intros Hk. unfold py_index. rewrite bool_decide_eq_true_2 by lia.
  by rewrite Nat2Z.id.
Qed.

(** *** List objects *)

Lemma len_run ℓ l w :
  heap w !! ℓ = Some l → len ℓ w = (Ok (Z.of_nat (length l)), w).
Proof.
  intros Hl. unfold len, read_list, mbind, M_bind. by rewrite Hl.
Qed.

Lemma getitem_run ℓ l (k : nat) x w :
  heap w !! ℓ = Some l → l !! k = Some x →
  getitem ℓ (Z.of_nat k) w = (Ok x, w).
Proof.
  intros Hl Hx. unfold getitem, read_list, lift, mbind, M_bind. rewrite Hl.
  rewrite py_index_in_range by (by eapply lookup_lt_Some). by rewrite Hx.
Qed.

Lemma setitem_run ℓ l (k : nat) x w :
  heap w !! ℓ = Some l → (k < length l)%nat →
  setitem ℓ (Z.of_nat k) x w
  = (Ok (), World (<[ℓ := <[k := x]> l]> (heap w)) (rng w) (files w) (trace w)).
Proof.
  intros Hl Hk. unfold setitem, read_list, lift, write_list, mbind, M_bind.
  rewrite Hl. by rewrite py_index_in_range.
Qed.

End Runs.

(** ** progressive_upscaling *)

Section Upscaling.
Context `{Torch}.

Lemma progressive_upscaling_unfold images :
  progressive_upscaling images
  = (n ← len images; for_each (py_range 1 n) (upscale_body images) ;; mret images).
Proof. reflexivity. Qed.

Lemma call_interpolate_run x s y w :
  interpolate x s = Ok y →
  call_interpolate x s w
  = (Ok y, World (heap w) (rng w) (files w) (trace w ++ [EInterpolate x s])).
Proof.
  intros Hy. unfold call_interpolate, log, lift, mbind, M_bind. by rewrite Hy.
Qed.

Lemma insert_mix (l ys : list tensor) (m : nat) y :
  length ys = length l → ys !! m = Some y →
  <[m := y]> (take (S m) l ++ drop (S m) ys) = take m l ++ drop m ys.
Proof.
  intros Hlen Hy.
  assert (m < length l)%nat as Hm by (rewrite <- Hlen; by eapply lookup_lt_Some).
  destruct (lookup_lt_is_Some_2 l m Hm) as [x Hx].
  rewrite (take_S_r _ _ _ Hx), <- app_assoc.
  rewrite insert_app_r_alt by (rewrite length_take; lia).
  rewrite length_take, Nat.min_l, Nat.sub_diag by lia. simpl.
  by rewrite <- (drop_S _ _ _ Hy).
Qed.

Section Loop.
Variables (images : loc) (l ys : list tensor).
Hypothesis Hlen : length ys = length l.
Hypothesis Hys : ∀ i x y, l !! i = Some x → ys !! i = Some y →
  upscale_one (length l) i x = Ok y.

Lemma mix_last :
  take (length l - 1) l ++ drop (length l - 1) ys = l.
Proof.
  transitivity (take (length l - 1) l ++ drop (length l - 1) l);
    [|apply take_drop].
  f_equal.
  destruct (decide (length l = 0)%nat) as [Hz|Hnz].
  - rewrite (drop_ge ys), (drop_ge l) by lia. done.
  - destruct (lookup_lt_is_Some_2 l (length l - 1)) as [x Hx]; [lia|].
    destruct (lookup_lt_is_Some_2 ys (length l - 1)) as [y Hy]; [lia|].
    pose proof (Hys _ _ _ Hx Hy) as Hxy. unfold upscale_one in Hxy.
    rewrite decide_False in Hxy by lia. injection Hxy as ->.
    rewrite (drop_S _ _ _ Hx), (drop_S _ _ _ Hy).
    rewrite (drop_ge ys), (drop_ge l) by lia. done.
Qed.

Lemma upscaled_last : ys !! (length l - 1)%nat = l !! (length l - 1)%nat.
Proof.
  destruct (l !! (length l - 1)%nat) as [x|] eqn:Hx.
  - destruct (lookup_lt_is_Some_2 ys (length l - 1)) as [y Hy].
    { apply lookup_lt_Some in Hx. lia. }
    pose proof (Hys _ _ _ Hx Hy) as Hxy. unfold upscale_one in Hxy.
    rewrite decide_False in Hxy by lia. by inversion Hxy; subst.
  - apply lookup_ge_None in Hx. apply lookup_ge_None. lia.
Qed.

Lemma upscale_body_run (a : nat) w :
  (1 ≤ a < length l)%nat →
  heap w !! images = Some (take (length l - a) l ++ drop (length l - a) ys) →
  ∃ x, l !! (length l - 1 - a)%nat = Some x ∧
    upscale_body images (Z.of_nat a) w
    = (Ok (), World (<[images := take (length l - S a) l ++ drop (length l - S a) ys]> (heap w))
                    (rng w) (files w)
                    (trace w ++ [EInterpolate x (2 ^ Z.of_nat a)])).
Proof.
  intros Ha Hheap.
  set (cur := take (length l - a) l ++ drop (length l - a) ys) in *.
  assert (length cur = length l) as Hcur.
  { unfold cur. rewrite length_app, length_take, length_drop. lia. }
  destruct (lookup_lt_is_Some_2 l (length l - 1 - a)) as [x Hx]; [lia|].
  destruct (lookup_lt_is_Some_2 ys (length l - 1 - a)) as [y Hy]; [lia|].
  assert (cur !! (length l - 1 - a)%nat = Some x) as Hcx.
  { unfold cur. rewrite lookup_app_l by (rewrite length_take; lia).
    rewrite lookup_take_lt by lia. done. }
  assert (interpolate x (2 ^ Z.of_nat a) = Ok y) as Hint.
  { specialize (Hys _ _ _ Hx Hy). unfold upscale_one in Hys.
    rewrite decide_True in Hys by lia.
    by replace (length l - 1 - (length l - 1 - a))%nat with a in Hys by lia. }
  exists x. split; [done|]. unfold upscale_body.
  rewrite (bind_run _ _ _ _ _ (len_run _ _ _ Hheap)), Hcur.
  replace (Z.of_nat (length l) - 1 - Z.of_nat a) with (Z.of_nat (length l - 1 - a)) by lia.
  rewrite (bind_run _ _ _ _ _ (getitem_run _ _ _ _ _ Hheap Hcx)).
  rewrite (bind_run _ _ _ _ _ (call_interpolate_run _ _ _ _ Hint)).
  rewrite (bind_run _ _ _ (Z.of_nat (length cur))
             (World (heap w) (rng w) (files w) (trace w ++ [EInterpolate x (2 ^ Z.of_nat a)])));
    [|by apply len_run].
  rewrite Hcur.
  replace (Z.of_nat (length l) - 1 - Z.of_nat a) with (Z.of_nat (length l - 1 - a)) by lia.
  rewrite (setitem_run _ cur) by (done || lia). simpl.
  do 3 f_equal. unfold cur.
  replace (length l - a)%nat with (S (length l - 1 - a)) by lia.
  replace (length l - S a)%nat with (length l - 1 - a)%nat by lia.
  by apply insert_mix.
Qed.

Lemma upscale_loop_run (k a : nat) w :
  (1 ≤ a)%nat → (a + k = Nat.max 1 (length l))%nat →
  heap w !! images = Some (take (length l - a) l ++ drop (length l - a) ys) →
  for_each (py_range (Z.of_nat a) (Z.of_nat (length l))) (upscale_body images) w
  = (Ok (), World (<[images := ys]> (heap w)) (rng w) (files w)
       (trace w ++ omap (λ factor : nat,
                     (λ x, EInterpolate x (2 ^ Z.of_nat factor))
                       <$> l !! (length l - 1 - factor)%nat) (seq a k))).
Proof.
  revert a w. induction k as [|k IH]; intros a w Ha Hak Hheap.
  - rewrite py_range_nil by lia. simpl. rewrite app_nil_r.
    replace (length l - a)%nat with 0%nat in Hheap by lia.
    rewrite take_0, drop_0 in Hheap. simpl in Hheap.
    rewrite (insert_id _ _ _ Hheap). by rewrite world_eta.
  - rewrite py_range_cons by lia. simpl for_each.
    destruct (upscale_body_run a w) as (x & Hx & Hrun); [lia|done|].
    rewrite (bind_run _ _ _ _ _ Hrun).
    replace (Z.of_nat a + 1) with (Z.of_nat (S a)) by lia.
    rewrite IH; [|lia|lia|simpl; by rewrite lookup_insert_eq].
    simpl. rewrite Hx. simpl. rewrite insert_insert_eq, <- app_assoc. done.
Qed.

(** The run of the function when every call to [interpolate] returns. *)
Lemma progressive_upscaling_run w :
  heap w !! images = Some l →
  progressive_upscaling images w
  = (Ok images, World (<[images := ys]> (heap w)) (rng w) (files w)
                      (trace w ++ upscale_calls l)).
Proof.
  intros Hheap. rewrite progressive_upscaling_unfold.
  rewrite (bind_run _ _ _ _ _ (len_run _ _ _ Hheap)).
  assert (for_each (py_range 1 (Z.of_nat (length l))) (upscale_body images) w
          = (Ok (), World (<[images := ys]> (heap w)) (rng w) (files w)
                          (trace w ++ upscale_calls l))) as Hloop.
  { unfold upscale_calls.
    change (py_range 1) with (py_range (Z.of_nat 1)).
    apply (upscale_loop_run (length l - 1) 1); [lia|lia|].
    by rewrite mix_last. }
  by rewrite (bind_run _ _ _ _ _ Hloop).
Qed.

End Loop.
End Upscaling.


(** ** The shape model obeys the laws *)

Lemma shape_model_laws readonly : @TorchLaws (ShapeModel.torch readonly).
Proof.
  split.
  - intros x s n c r Hx Hlen Hpos Hs. simpl in *. subst x.
    unfold ShapeModel.interpolate_impl. exists (n :: c :: scale_by s r).
    rewrite bool_decide_eq_true_2 by done.
    replace (forallb (Z.ltb 0) r) with true; [|symmetry; apply forallb_forall;
      intros z Hz; apply Z.ltb_lt; rewrite Forall_forall in Hpos; apply Hpos;
      by apply list_elem_of_In].
    by replace (0 <? s) with true by (symmetry; by apply Z.ltb_lt).
  - intros x s y n c r Hx Hy. simpl in *. subst x.
    unfold ShapeModel.interpolate_impl in Hy.
    destruct (_ && _); by inversion Hy.
  - intros x. simpl. unfold ShapeModel.squeeze0_impl. by destruct x as [|[|[| |]|]].
Qed.


(** ** The resolution synchronizer *)

Section Synchronizer.
Context `{Torch}.

(** C9: on a list of any length [n], when the calls to [interpolate] return,
    the function replaces the image at every index [i < n - 1] by
    [interpolate] of it with scale factor [2^(n-1-i)], leaves the last image
    as it is, keeps the length, and returns the very list object it was
    given, updated in place; the empty list is returned unchanged. *)
Theorem progressive_upscaling_spec (images : loc) (l ys : list tensor) (w : world) :
  heap w !! images = Some l →
  length ys = length l →
  (∀ i x y, l !! i = Some x → ys !! i = Some y → upscale_one (length l) i x = Ok y) →
  progressive_upscaling images w
  = (Ok images, World (<[images := ys]> (heap w)) (rng w) (files w)
                      (trace w ++ upscale_calls l))
  ∧ (∀ i x, l !! i = Some x → (i < length l - 1)%nat →
       ∃ y, ys !! i = Some y ∧ interpolate x (2 ^ Z.of_nat (length l - 1 - i)) = Ok y)
  ∧ ys !! (length l - 1)%nat = l !! (length l - 1)%nat
  ∧ (l = [] → progressive_upscaling images w = (Ok images, w)).
Proof.
  intros Hheap Hlen Hys.
  pose proof (progressive_upscaling_run images l ys Hlen Hys w Hheap) as Hrun.
  split; [done|]. split; [|split].
  - intros i x Hx Hi.
    destruct (lookup_lt_is_Some_2 ys i) as [y Hy]; [lia|].
    exists y. split; [done|].
    specialize (Hys _ _ _ Hx Hy). unfold upscale_one in Hys.
    by rewrite decide_True in Hys by done.
  - by apply upscaled_last.
  - intros ->. rewrite Hrun. destruct ys; [|done].
    unfold upscale_calls. simpl. rewrite app_nil_r.
    rewrite (insert_id _ _ _ Hheap). by rewrite world_eta.
Qed.

(** C8: on a list of length 1 the loop has nothing to iterate over, and the
    function returns its argument with the world, the list included, as it
    was. *)
Theorem progressive_upscaling_singleton (images : loc) (x : tensor) (w : world) :
  heap w !! images = Some [x] →
  py_range 1 (Z.of_nat (length [x])) = []
  ∧ progressive_upscaling images w = (Ok images, w).
Proof.
  intros Hheap. split; [done|].
  rewrite (progressive_upscaling_run images [x] [x]); [|done| |done].
  - unfold upscale_calls. simpl. rewrite app_nil_r.
    rewrite (insert_id _ _ _ Hheap). by rewrite world_eta.
  - intros [|i] x' y Hx Hy; [|done]. simpl in *.
    inversion Hx; inversion Hy; subst. done.
Qed.

Lemma upscaled_exists (P : nat → tensor → tensor → Prop) (l : list tensor) :
  (∀ i x, l !! i = Some x → ∃ y, P i x y) →
  ∃ ys, length ys = length l
        ∧ ∀ i x, l !! i = Some x → ∃ y, ys !! i = Some y ∧ P i x y.
Proof.
  induction l as [|x l IH] using rev_ind; intros HP.
  - exists []. split; [done|]. intros i x Hx. done.
  - destruct IH as (ys & Hlen & Hys).
    { intros i x' Hx'. apply HP. rewrite lookup_app_l; [done|].
      by eapply lookup_lt_Some. }
    destruct (HP (length l) x) as [y Hy].
    { by rewrite lookup_app_r, Nat.sub_diag by lia. }
    exists (ys ++ [y]). split; [rewrite !length_app; simpl; lia|].
    intros i x' Hx'. destruct (decide (i < length l)%nat) as [Hi|Hi].
    + rewrite lookup_app_l in Hx' by done. rewrite lookup_app_l by lia. eauto.
    + rewrite lookup_app_r in Hx' by lia.
      destruct (i - length l)%nat as [|k] eqn:Hk; [|done].
      simpl in Hx'. inversion Hx'; subst x'.
      assert (i = length l) as -> by lia.
      exists y. by rewrite lookup_app_r, Hlen, Nat.sub_diag by lia.
Qed.

(** C1: when the images have resolutions [r, 2r, ..., 2^(n-1) r], the
    function returns the same list, of the same length, in which the image at
    index [n-1-factor] has been replaced, for each [factor] from 1 to [n-1],
    by [interpolate] of it with scale factor [2^factor], and every image has
    the resolution [2^(n-1) r] of the last one. *)
Theorem progressive_upscaling_resolution `{!TorchLaws}
    (images : loc) (l : list tensor) (r : list Z) (w : world) :
  heap w !! images = Some l →
  (1 ≤ length r ≤ 3)%nat → Forall (Z.lt 0) r →
  (∀ i x, l !! i = Some x → has_resolution x (scale_by (2 ^ Z.of_nat i) r)) →
  ∃ ys w',
    progressive_upscaling images w = (Ok images, w')
    ∧ heap w' !! images = Some ys
    ∧ length ys = length l
    ∧ (∀ factor, (1 ≤ factor ≤ length l - 1)%nat →
         ∃ x y, l !! (length l - 1 - factor)%nat = Some x
                ∧ ys !! (length l - 1 - factor)%nat = Some y
                ∧ interpolate x (2 ^ Z.of_nat factor) = Ok y)
    ∧ ys !! (length l - 1)%nat = l !! (length l - 1)%nat
    ∧ (∀ i y, ys !! i = Some y →
         has_resolution y (scale_by (2 ^ Z.of_nat (length l - 1)) r)).
Proof.
  intros Hheap Hr Hpos Hres.
  destruct (upscaled_exists
              (λ i x y, upscale_one (length l) i x = Ok y) l) as (ys & Hlen & Hys).
  { intros i x Hx. unfold upscale_one. case_decide; [|by exists x].
    destruct (Hres _ _ Hx) as (n & c & Hsh).
    eapply (interpolate_defined x _ n c); [done| | |lia].
    - unfold scale_by. by rewrite length_fmap.
    - unfold scale_by. apply Forall_fmap. eapply Forall_impl; [done|].
      intros z Hz. simpl. nia. }
  assert (∀ i x y, l !! i = Some x → ys !! i = Some y →
            upscale_one (length l) i x = Ok y) as Hys'.
  { intros i x y Hx Hy. destruct (Hys _ _ Hx) as (y' & Hy' & Hone). congruence. }
  pose proof (progressive_upscaling_run images l ys Hlen Hys' w Hheap) as Hrun.
  eexists ys, _. split; [exact Hrun|]. split; [simpl; by rewrite lookup_insert_eq|].
  split; [done|]. split; [|split; [by apply upscaled_last|]].
  - intros factor Hf.
    destruct (lookup_lt_is_Some_2 l (length l - 1 - factor)) as [x Hx]; [lia|].
    destruct (Hys _ _ Hx) as (y & Hy & Hint).
    exists x, y. split; [done|]. split; [done|].
    unfold upscale_one in Hint. rewrite decide_True in Hint by lia.
    by replace (length l - 1 - (length l - 1 - factor))%nat with factor in Hint by lia.
  - intros i y Hy.
    destruct (lookup_lt_is_Some_2 l i) as [x Hx].
    { rewrite <- Hlen. by eapply lookup_lt_Some. }
    destruct (Hres _ _ Hx) as (n & c & Hsh).
    specialize (Hys' _ _ _ Hx Hy). unfold upscale_one in Hys'.
    case_decide as Hi.
    + exists n, c. rewrite (interpolate_shape _ _ _ _ _ _ Hsh Hys').
      do 2 f_equal. unfold scale_by. rewrite <- list_fmap_compose.
      apply list_fmap_ext. intros _ z _. simpl.
      replace (Z.of_nat (length l - 1)) with (Z.of_nat (length l - 1 - i) + Z.of_nat i) by lia.
      rewrite Z.pow_add_r by lia. lia.
    + inversion Hys'; subst y. exists n, c.
      apply lookup_lt_Some in Hx. by replace (length l - 1)%nat with i by lia.
Qed.

End Synchronizer.

(** *** Instances on the shape model *)

Section SynchronizerExamples.
Import ShapeModel.

Lemma progressive_upscaling_singleton_witness :
  heap (world_with [[1; 3; 4; 4]]) !! 1%positive = Some [[1; 3; 4; 4]]
  ∧ py_range 1 (Z.of_nat (length [[1; 3; 4; 4]])) = []
  ∧ progressive_upscaling 1%positive (world_with [[1; 3; 4; 4]])
    = (Ok 1%positive, world_with [[1; 3; 4; 4]]).
Proof.
  split; [reflexivity|].
  apply (progressive_upscaling_singleton (H := torch [])). reflexivity.
Defined.

Lemma three_scales_upscaled i x y :
  three_scales !! i = Some x → three_synchronized !! i = Some y →
  upscale_one (H := torch []) (length three_scales) i x = Ok y.
Proof.
  destruct i as [|[|[|i]]]; simpl; intros [= <-] [= <-]; reflexivity.
Qed.

Lemma progressive_upscaling_spec_witness :
  heap (world_with three_scales) !! 1%positive = Some three_scales
  ∧ length three_synchronized = length three_scales
  ∧ progressive_upscaling 1%positive (world_with three_scales)
    = (Ok 1%positive,
       @World (torch []) (<[1%positive := three_synchronized]> (heap (world_with three_scales)))
              0%nat ∅
              ([] ++ upscale_calls (H := torch []) three_scales)).
Proof.
  split; [reflexivity|]. split; [reflexivity|].
  apply (progressive_upscaling_spec (H := torch []) 1%positive three_scales
           three_synchronized (world_with three_scales));
    [reflexivity | reflexivity | apply three_scales_upscaled].
Defined.

Lemma three_scales_resolution i x :
  three_scales !! i = Some x →
  has_resolution (H := torch []) x (scale_by (2 ^ Z.of_nat i) [4; 4]).
Proof.
  destruct i as [|[|[|i]]]; simpl; intros [= <-]; by exists 1, 3.
Qed.

Lemma progressive_upscaling_resolution_witness :
  heap (world_with three_scales) !! 1%positive = Some three_scales
  ∧ ∃ ys w',
      progressive_upscaling 1%positive (world_with three_scales) = (Ok 1%positive, w')
      ∧ heap w' !! 1%positive = Some ys
      ∧ length ys = 3%nat
      ∧ ∀ i y, ys !! i = Some y →
          has_resolution (H := torch []) y (scale_by (2 ^ Z.of_nat 2) [4; 4]).
Proof.
  split; [reflexivity|].
  destruct (progressive_upscaling_resolution (H := torch []) (H0 := shape_model_laws [])
              1%positive three_scales [4; 4] (world_with three_scales))
    as (ys & w' & Hrun & Hheap & Hlen & _ & _ & Hres).
  - reflexivity.
  - simpl. lia.
  - repeat constructor.
  - apply three_scales_resolution.
  - exists ys, w'. auto.
Defined.

End SynchronizerExamples.

(** ** The sampler and the grid composer *)

Section Arithmetic.
Context `{Torch}.

Lemma sum_squares_cons x v : sum_squares (x :: v) = (x * x + sum_squares v)%R.
Proof. reflexivity. Qed.

Lemma sum_squares_nonneg v : (0 <= sum_squares v)%R.
Proof.
  induction v as [|x v IH]; [unfold sum_squares; simpl; lra|].
  rewrite sum_squares_cons. nra.
Qed.

(** A value within [u] of [x] has a magnitude within [u] of that of [x]. *)
Lemma within_abs (u x y : R) :
  within u x y → ((1 - u) * Rabs x <= Rabs y <= (1 + u) * Rabs x)%R.
Proof.
  unfold within. intros Hxy.
  pose proof (Rabs_triang (y - x) x) as H1.
  pose proof (Rabs_triang (x - y) y) as H2.
  replace (y - x + x)%R with y in H1 by lra.
  replace (x - y + y)%R with x in H2 by lra.
  rewrite (Rabs_minus_sym x y) in H2. lra.
Qed.

Lemma within_pos (u x y : R) :
  (0 <= x)%R → (u < 1)%R → within u x y →
  ((1 - u) * x <= y <= (1 + u) * x)%R.
Proof.
  unfold within. intros Hx Hu Hxy. rewrite (Rabs_pos_eq x Hx) in Hxy.
  pose proof (Rle_abs (y - x)) as H1. pose proof (Rle_abs (x - y)) as H2.
  rewrite (Rabs_minus_sym x y) in H2. lra.
Qed.

(** Entries scaled in magnitude between [a] and [b] scale the norm likewise. *)
Lemma sum_squares_between (a b : R) (f : R → R) (v : list R) :
  (0 <= a)%R →
  (∀ x, x ∈ v → (a * Rabs x <= Rabs (f x) <= b * Rabs x)%R) →
  (a * a * sum_squares v <= sum_squares (f <$> v) <= b * b * sum_squares v)%R.
Proof.
  intros Ha. induction v as [|x v IH]; intros Hf.
  - unfold sum_squares. simpl. lra.
  - rewrite fmap_cons, !sum_squares_cons.
    destruct IH as [IH1 IH2]; [intros y Hy; apply Hf; by right|].
    destruct (Hf x) as [Hlo Hhi]; [by left|].
    pose proof (Rabs_pos x) as Hx. pose proof (Rabs_pos (f x)) as Hfx.
    assert (x * x = Rabs x * Rabs x)%R as ->
      by (rewrite <- Rabs_mult; symmetry; apply Rabs_pos_eq; nra).
    assert (f x * f x = Rabs (f x) * Rabs (f x))%R as ->
      by (rewrite <- Rabs_mult; symmetry; apply Rabs_pos_eq; nra).
    remember (Rabs x) as ax. remember (Rabs (f x)) as fx.
    assert (a * ax * (a * ax) <= fx * fx)%R
      by (apply Rmult_le_compat; nra).
    assert (fx * fx <= b * ax * (b * ax))%R
      by (apply Rmult_le_compat; nra).
    split; nra.
Qed.

Lemma norm_between (a b : R) (f : R → R) (v : list R) :
  (0 <= a)%R → (0 <= b)%R →
  (∀ x, x ∈ v → (a * Rabs x <= Rabs (f x) <= b * Rabs x)%R) →
  (a * norm v <= norm (f <$> v) <= b * norm v)%R.
Proof.
  intros Ha Hb Hf. destruct (sum_squares_between a b f v Ha Hf) as [Hlo Hhi].
  pose proof (sum_squares_nonneg v) as Hv. unfold norm. split.
  - replace (a * sqrt (sum_squares v))%R with (sqrt (a * a * sum_squares v))
      by (rewrite sqrt_mult, sqrt_square by nra; done).
    apply sqrt_le_1; nra.
  - replace (b * sqrt (sum_squares v))%R with (sqrt (b * b * sum_squares v))
      by (rewrite sqrt_mult, sqrt_square by nra; done).
    apply sqrt_le_1; try nra.
Qed.

Lemma norm_pos_nonzero v : norm v ≠ 0%R → (0 < norm v)%R.
Proof.
  intros Hn. pose proof (sqrt_pos (sum_squares v)) as Hp. unfold norm in *. lra.
Qed.

(** The rescaled vector, when every step is within [u] of the exact one. *)
Lemma norm_rescale (u : R) (v : list R) (s s' : R) :
  (0 <= u < 1)%R → (0 <= s)%R → norm v ≠ 0%R →
  within u (norm v) (tensor_norm v) →
  within u s s' →
  (∀ x, x ∈ v → within u (x / tensor_norm v) (tensor_div x (tensor_norm v))) →
  (∀ x, x ∈ v →
     within u (tensor_div x (tensor_norm v) * s')
              (tensor_mul (tensor_div x (tensor_norm v)) s')) →
  ((1 - u) ^ 3 / (1 + u) * s <= norm (rescale v s') <= (1 + u) ^ 3 / (1 - u) * s)%R.
Proof.
  intros Hu Hs Hn HN Hs' Hdiv Hmul.
  apply norm_pos_nonzero in Hn.
  apply within_pos in HN; [|lra|lra]. apply within_pos in Hs'; [|lra|lra].
  remember (norm v) as N eqn:HeqN. remember (tensor_norm v) as N' eqn:HeqN'.
  assert (0 < (1 - u) * N)%R as HuN by (apply Rmult_lt_0_compat; lra).
  assert (0 <= (1 - u) * s)%R as Hus by (apply Rmult_le_pos; lra).
  assert (0 < N')%R as HN' by (eapply Rlt_le_trans; [exact HuN|apply HN]).
  assert (0 <= s')%R as Hs0 by (eapply Rle_trans; [exact Hus|apply Hs']).
  destruct (norm_between ((1 - u) * (1 - u) * s' / N') ((1 + u) * (1 + u) * s' / N')
              (λ x, tensor_mul (tensor_div x N') s') v) as [Hlo Hhi].
  { apply Rmult_le_pos; [repeat apply Rmult_le_pos; lra|].
    apply Rlt_le, Rinv_0_lt_compat, HN'. }
  { apply Rmult_le_pos; [repeat apply Rmult_le_pos; lra|].
    apply Rlt_le, Rinv_0_lt_compat, HN'. }
  { intros x Hx. specialize (Hdiv x Hx). specialize (Hmul x Hx).
    apply within_abs in Hdiv, Hmul.
    rewrite Rabs_mult, (Rabs_pos_eq s' Hs0) in Hmul.
    unfold Rdiv in Hdiv. rewrite Rabs_mult, (Rabs_pos_eq (/ N')) in Hdiv
      by (apply Rlt_le, Rinv_0_lt_compat, HN').
    pose proof (Rabs_pos x) as Hx0.
    pose proof (Rabs_pos (tensor_div x N')) as Hq0.
    assert (0 < / N')%R as Hinv by (apply Rinv_0_lt_compat, HN').
    remember (Rabs (tensor_div x N')) as q. remember (Rabs x) as ax.
    remember (/ N')%R as i. unfold Rdiv. rewrite <- Heqi.
    split.
    - apply Rle_trans with ((1 - u) * (q * s'))%R; [|lra].
      replace ((1 - u) * (1 - u) * s' * i * ax)%R
        with ((1 - u) * (((1 - u) * (ax * i)) * s'))%R by ring.
      apply Rmult_le_compat_l; [lra|]. apply Rmult_le_compat_r; lra.
    - apply Rle_trans with ((1 + u) * (q * s'))%R; [lra|].
      replace ((1 + u) * (1 + u) * s' * i * ax)%R
        with ((1 + u) * (((1 + u) * (ax * i)) * s'))%R by ring.
      apply Rmult_le_compat_l; [lra|]. apply Rmult_le_compat_r; lra. }
  rewrite <- HeqN in Hlo, Hhi.
  change (norm (rescale v s')) with
    (norm ((λ x, tensor_mul (tensor_div x (tensor_norm v)) s') <$> v)).
  rewrite <- HeqN'.
  assert (0 < / N')%R as Hinv by (apply Rinv_0_lt_compat, HN').
  assert (N * / N' <= / (1 - u))%R as Hr1.
  { apply Rmult_le_reg_r with ((1 - u) * N')%R; [nra|].
    replace (N * / N' * ((1 - u) * N'))%R with ((1 - u) * N * (N' * / N'))%R by ring.
    replace (/ (1 - u) * ((1 - u) * N'))%R with (N' * ((1 - u) * / (1 - u)))%R by ring.
    rewrite !Rinv_r by lra. lra. }
  assert (/ (1 + u) <= N * / N')%R as Hr2.
  { apply Rmult_le_reg_r with ((1 + u) * N')%R; [nra|].
    replace (N * / N' * ((1 + u) * N'))%R with ((1 + u) * N * (N' * / N'))%R by ring.
    replace (/ (1 + u) * ((1 + u) * N'))%R with (N' * ((1 + u) * / (1 + u)))%R by ring.
    rewrite !Rinv_r by lra. lra. }
  assert (0 < / (1 - u))%R as Hi1 by (apply Rinv_0_lt_compat; lra).
  assert (0 < / (1 + u))%R as Hi2 by (apply Rinv_0_lt_compat; lra).
  unfold Rdiv in *. split.
  - eapply Rle_trans; [|exact Hlo].
    replace ((1 - u) * (1 - u) * s' * / N' * N)%R
      with ((1 - u) * (1 - u) * s' * (N * / N'))%R by ring.
    apply Rle_trans with ((1 - u) * (1 - u) * s' * / (1 + u))%R.
    + replace ((1 - u) ^ 3 * / (1 + u) * s)%R
        with ((1 - u) * (1 - u) * ((1 - u) * s) * / (1 + u))%R by ring.
      apply Rmult_le_compat_r; [lra|]. apply Rmult_le_compat_l; nra.
    + apply Rmult_le_compat_l; [|lra]. apply Rmult_le_pos; nra.
  - eapply Rle_trans; [exact Hhi|].
    replace ((1 + u) * (1 + u) * s' * / N' * N)%R
      with ((1 + u) * (1 + u) * s' * (N * / N'))%R by ring.
    apply Rle_trans with ((1 + u) * (1 + u) * s' * / (1 - u))%R.
    + apply Rmult_le_compat_l; [|lra]. apply Rmult_le_pos; nra.
    + replace ((1 + u) ^ 3 * / (1 - u) * s)%R
        with ((1 + u) * (1 + u) * ((1 + u) * s) * / (1 - u))%R by ring.
      apply Rmult_le_compat_r; [lra|]. apply Rmult_le_compat_l; nra.
Qed.

Lemma ceil_sqrt_real (n : Z) :
  0 ≤ n → (IZR (ceil_sqrt n) - 1 < sqrt (IZR n) <= IZR (ceil_sqrt n))%R.
Proof.
  intros Hn. unfold ceil_sqrt. destruct (decide (n = 0)) as [->|Hnz].
  - rewrite Z.sqrt_up_0, sqrt_0. lra.
  - destruct (Z.sqrt_up_spec n) as [Hlo Hhi]; [lia|].
    assert (0 < Z.sqrt_up n) as Hk by (apply Z.sqrt_up_pos; lia).
    set (k := Z.sqrt_up n) in *.
    assert (0 <= IZR (Z.pred k))%R as Hk0 by (apply IZR_le; lia).
    assert (0 <= IZR k)%R as Hk1 by (apply IZR_le; lia).
    split.
    + replace (IZR k - 1)%R with (IZR (Z.pred k))
        by (unfold Z.pred; rewrite plus_IZR; simpl; lra).
      rewrite <- (sqrt_square (IZR (Z.pred k))) by done.
      apply sqrt_lt_1; [nra| apply IZR_le; lia|].
      rewrite <- mult_IZR. by apply IZR_lt.
    + rewrite <- (sqrt_square (IZR k)) by done.
      apply sqrt_le_1; [apply IZR_le; lia|nra|].
      rewrite <- mult_IZR. by apply IZR_le.
Qed.

Lemma compose_grid_run (args : Args) (ss_images : loc) (l : list tensor) (w : world) :
  heap w !! ss_images = Some l →
  compose_grid args ss_images w
  = (make_grid l (grid_columns (num_columns args) (Z.of_nat (length l))),
     World (heap w) (rng w) (files w)
       (trace w ++ [EMakeGrid l (grid_columns (num_columns args) (Z.of_nat (length l)))])).
Proof.
  intros Hheap. unfold compose_grid, grid_columns.
  destruct (num_columns args) as [c|].
  - unfold call_make_grid, read_list, log, lift, mbind, M_bind, mret, M_ret.
    by rewrite Hheap.
  - unfold call_make_grid, read_list, log, lift, mbind, M_bind, mret, M_ret.
    rewrite (len_run _ _ _ Hheap). by rewrite Hheap.
Qed.

(** C4: for a latent dimension [D > 0] and a drawn vector of nonzero norm,
    the sampler returns the vector divided by its norm and multiplied by
    [sqrt D], each step computed in floating point.  When every step of the
    run (the norm, the square root, each division, each multiplication) is
    within a relative error [u < 1] of its exact result, the Euclidean norm
    of the vector returned is within the tolerance
    [(1 - u)^3 / (1 + u) .. (1 + u)^3 / (1 - u)] of [sqrt D]; over the reals,
    where every step is exact ([u = 0]), it is [sqrt D]. *)
Theorem sampled_latent_norm (args : Args) (v : list R) (g : rng_state) (w : world)
    (u : R) :
  0 < latent_size args →
  randn (latent_size args) (rng w) = (Ok v, g) →
  norm v ≠ 0%R →
  (0 <= u < 1)%R →
  within u (norm v) (tensor_norm v) →
  within u (sqrt (IZR (latent_size args))) (math_sqrt (latent_size args)) →
  (∀ x, x ∈ v → within u (x / tensor_norm v) (tensor_div x (tensor_norm v))) →
  (∀ x, x ∈ v →
     within u (tensor_div x (tensor_norm v) * math_sqrt (latent_size args))
              (tensor_mul (tensor_div x (tensor_norm v))
                          (math_sqrt (latent_size args)))) →
  ∃ points,
    sample_latent args w
    = (Ok points, World (heap w) g (files w) (trace w ++ [EDraw (latent_size args)]))
    ∧ points
      = (λ x, tensor_mul (tensor_div x (tensor_norm v))
                         (math_sqrt (latent_size args))) <$> v
    ∧ ((1 - u) ^ 3 / (1 + u) * sqrt (IZR (latent_size args)) <= norm points
       <= (1 + u) ^ 3 / (1 - u) * sqrt (IZR (latent_size args)))%R
    ∧ (u = 0%R → norm points = sqrt (IZR (latent_size args))).
Proof.
  intros HD Hdraw Hnorm Hu HN Hs Hdiv Hmul.
  exists (rescale v (math_sqrt (latent_size args))).
  pose proof (norm_rescale u v _ _ Hu (sqrt_pos _) Hnorm HN Hs Hdiv Hmul) as Hbounds.
  split; [|split; [done|split; [done|]]].
  - unfold sample_latent, call_randn, py_sqrt, lift, mbind, M_bind, mret, M_ret.
    rewrite Hdraw. by rewrite bool_decide_eq_false_2 by lia.
  - intros ->. replace ((1 - 0) ^ 3 / (1 + 0))%R with 1%R in Hbounds by field.
    replace ((1 + 0) ^ 3 / (1 - 0))%R with 1%R in Hbounds by field. lra.
Qed.

(** C3: the grid composer hands [make_grid] the images with a column count
    that is the ceiling of the square root of their number when
    [--num_columns] was not given (3 for six or nine images, 4 for ten), and
    the configured value otherwise, whatever the number of images. *)
Theorem grid_column_count (args : Args) (ss_images : loc) (l : list tensor) (w : world) :
  heap w !! ss_images = Some l →
  ∃ k,
    compose_grid args ss_images w
    = (make_grid l k, World (heap w) (rng w) (files w) (trace w ++ [EMakeGrid l k]))
    ∧ (num_columns args = None →
         (IZR k - 1 < sqrt (INR (length l)) <= IZR k)%R
         ∧ (length l = 6%nat → k = 3)
         ∧ (length l = 9%nat → k = 3)
         ∧ (length l = 10%nat → k = 4))
    ∧ (∀ c, num_columns args = Some c → k = c).
Proof.
  intros Hheap.
  exists (grid_columns (num_columns args) (Z.of_nat (length l))). split; [|split].
  - by apply compose_grid_run.
  - intros ->. simpl. split.
    + rewrite INR_IZR_INZ. apply ceil_sqrt_real. lia.
    + repeat split; intros ->; reflexivity.
  - by intros c ->.
Qed.

End Arithmetic.

Section ArithmeticExamples.
Import ShapeModel.

Lemma norm_ones_nonzero : norm [1; 1]%R ≠ 0%R.
Proof.
  unfold norm. intros Hz. apply sqrt_eq_0 in Hz; [|apply sum_squares_nonneg].
  rewrite !sum_squares_cons in Hz. unfold sum_squares in Hz. simpl in Hz. lra.
Qed.

Lemma within_round_away (x : R) : within (/ 16777216) x (round_away x).
Proof.
  unfold within, round_away.
  replace (x * (1 + / 16777216) - x)%R with (/ 16777216 * x)%R by ring.
  rewrite Rabs_mult, (Rabs_pos_eq (/ 16777216)) by lra. lra.
Qed.

Lemma sampled_latent_norm_witness :
  0 < latent_size sample_args
  ∧ norm [1; 1]%R ≠ 0%R
  ∧ ∃ points,
      sample_latent (H := rounding_torch) sample_args
        (@World rounding_torch ∅ 0%nat ∅ [])
      = (Ok points, @World rounding_torch ∅ 1%nat ∅ ([] ++ [EDraw 2]))
      ∧ ((1 - / 16777216) ^ 3 / (1 + / 16777216) * sqrt (IZR 2) <= norm points
         <= (1 + / 16777216) ^ 3 / (1 - / 16777216) * sqrt (IZR 2))%R.
Proof.
  split; [reflexivity|]. split; [apply norm_ones_nonzero|].
  destruct (sampled_latent_norm (H := rounding_torch) sample_args [1; 1]%R 1%nat
              (@World rounding_torch ∅ 0%nat ∅ []) (/ 16777216)%R)
    as (points & Hrun & _ & Hnorm & _).
  - reflexivity.
  - reflexivity.
  - apply norm_ones_nonzero.
  - lra.
  - apply within_round_away.
  - apply within_round_away.
  - intros x _. apply within_round_away.
  - intros x _. apply within_round_away.
  - exists points. split; [exact Hrun|exact Hnorm].
Defined.

Lemma grid_column_count_witness :
  heap (world_with three_synchronized) !! 1%positive = Some three_synchronized
  ∧ ∃ k,
      compose_grid (H := torch []) sample_args 1%positive (world_with three_synchronized)
      = (make_grid (Torch := torch []) three_synchronized k,
         @World (torch []) (heap (world_with three_synchronized)) 0%nat ∅
                ([] ++ [EMakeGrid (H := torch []) three_synchronized k]))
      ∧ (IZR k - 1 < sqrt (INR 3) <= IZR k)%R.
Proof.
  split; [reflexivity|].
  destruct (grid_column_count (H := torch []) sample_args 1%positive three_synchronized
              (world_with three_synchronized)) as (k & Hrun & Hauto & _).
  - reflexivity.
  - exists k. split; [exact Hrun|]. by apply Hauto.
Defined.

End ArithmeticExamples.

(** ** Computations that write no file *)

Section Quiet.
Context `{Torch}.

Lemma written_app (tr1 tr2 : list event) :
  written (tr1 ++ tr2) = written tr1 ++ written tr2.
Proof. unfold written. apply omap_app. Qed.

Lemma quiet_ret {A} (a : A) : quiet (mret a).
Proof. intros w r w' [= <- <-]. done. Qed.

Lemma quiet_raise {A} (e : exn) : quiet (raise (A := A) e).
Proof. intros w r w' [= <- <-]. done. Qed.

Lemma quiet_lift {A} (r : result A) : quiet (lift r).
Proof. intros w r' w' [= <- <-]. done. Qed.

Lemma quiet_bind {A B} (m : M A) (f : A → M B) :
  quiet m → (∀ a, quiet (f a)) → quiet (m ≫= f).
Proof.
  intros Hm Hf w r w' Hr.
  apply bind_inv in Hr as [(a & w1 & Hma & Hfa)|(e & Hme & ->)].
  - destruct (Hm _ _ _ Hma) as [Hf1 Ht1], (Hf _ _ _ _ Hfa) as [Hf2 Ht2].
    split; congruence.
  - by apply Hm in Hme.
Qed.

Lemma quiet_for_each {A} (xs : list A) (body : A → M unit) :
  (∀ x, quiet (body x)) → quiet (for_each xs body).
Proof.
  intros Hbody. induction xs as [|x xs IH]; simpl.
  - apply quiet_ret.
  - apply quiet_bind; [apply Hbody|]. intros _. apply IH.
Qed.

Lemma quiet_log (ev : event) :
  (∀ path img, ev ≠ EWrite path img) → quiet (log ev).
Proof.
  intros Hev w r w' [= <- <-]. simpl. split; [done|].
  rewrite written_app. destruct ev; simpl; try by rewrite app_nil_r.
  by destruct (Hev path img).
Qed.

Lemma quiet_new_list l : quiet (new_list l).
Proof. intros w r w' [= <- <-]. done. Qed.

Lemma quiet_read_list ℓ : quiet (read_list ℓ).
Proof.
  intros w r w'. unfold read_list. destruct (heap w !! ℓ); intros [= <- <-]; done.
Qed.

Lemma quiet_write_list ℓ l : quiet (write_list ℓ l).
Proof. intros w r w' [= <- <-]. done. Qed.

Lemma quiet_call_randn n : quiet (call_randn n).
Proof.
  intros w r w'. unfold call_randn. destruct (randn n (rng w)) as [r' g].
  intros [= <- <-]. simpl. split; [done|]. rewrite written_app. simpl.
  by rewrite app_nil_r.
Qed.

Create HintDb quiet.
#[local] Hint Resolve quiet_ret quiet_raise quiet_lift quiet_bind quiet_for_each
  quiet_new_list quiet_read_list quiet_write_list quiet_call_randn : quiet.
#[local] Hint Extern 2 (quiet (log _)) => (apply quiet_log; intros; discriminate) : quiet.
#[local] Hint Extern 5 (quiet (match ?x with _ => _ end)) => destruct x : quiet.

Ltac quiet_steps := intros; repeat (first
  [ apply quiet_bind; [|intros ?]
  | apply quiet_for_each; intros ?
  | solve [eauto with quiet] ]).

Lemma quiet_len ℓ : quiet (len ℓ).
Proof. unfold len. quiet_steps. Qed.

Lemma quiet_getitem ℓ i : quiet (getitem ℓ i).
Proof. unfold getitem. quiet_steps. Qed.

Lemma quiet_setitem ℓ i x : quiet (setitem ℓ i x).
Proof. unfold setitem. quiet_steps. Qed.

Lemma quiet_call_interpolate x s : quiet (call_interpolate x s).
Proof. unfold call_interpolate. quiet_steps. Qed.

#[local] Hint Resolve quiet_len quiet_getitem quiet_setitem quiet_call_interpolate : quiet.

Lemma quiet_progressive_upscaling ℓ : quiet (progressive_upscaling ℓ).
Proof. unfold progressive_upscaling, upscale_body. quiet_steps. Qed.

Lemma quiet_sample_latent args : quiet (sample_latent args).
Proof. unfold sample_latent. quiet_steps. Qed.

Lemma quiet_call_gen gen points : quiet (call_gen gen points).
Proof. unfold call_gen. quiet_steps. Qed.

Lemma quiet_squeeze_all ℓ : quiet (squeeze_all ℓ).
Proof. unfold squeeze_all. quiet_steps. Qed.

Lemma quiet_compose_grid args ℓ : quiet (compose_grid args ℓ).
Proof.
  unfold compose_grid, call_make_grid. destruct (num_columns args); quiet_steps.
Qed.

Lemma quiet_render args gen : quiet (render args gen).
Proof.
  unfold render.
  quiet_steps; auto using quiet_sample_latent, quiet_call_gen,
    quiet_progressive_upscaling, quiet_squeeze_all, quiet_compose_grid with quiet.
Qed.

(** One iteration either completes, having written its file and no other,
    or raises, having written none. *)
Lemma sample_iteration_outcome args gen save_path img_num w r w' :
  sample_iteration args gen save_path img_num w = (r, w') →
  (r = Ok () ∧ ∃ img,
      files w' = <[sample_path save_path img_num := img]> (files w)
      ∧ written (trace w') = written (trace w) ++ [sample_path save_path img_num])
  ∨ (∃ e, r = Raise e ∧ files w' = files w
          ∧ written (trace w') = written (trace w)).
Proof.
  unfold sample_iteration. intros Hr.
  apply bind_inv in Hr as [(img & w1 & Hrender & Hsave)|(e & Hrender & ->)].
  - apply quiet_render in Hrender as [Hf Ht]. unfold imsave in Hsave.
    destruct (writable _); inversion Hsave; subst; simpl.
    + left. split; [done|]. exists img. rewrite Hf, written_app, Ht. done.
    + right. eauto.
  - apply quiet_render in Hrender as [Hf Ht]. right. eauto.
Qed.

End Quiet.

(** ** File names *)

Section FileNames.

Lemma string_length_app (s t : string) :
  String.length (s +:+ t) = (String.length s + String.length t)%nat.
Proof. induction s as [|c s IH]; simpl; [done|]. by rewrite IH. Qed.

Lemma string_app_assoc (a b c : string) : (a +:+ b) +:+ c = a +:+ (b +:+ c).
Proof.
  induction a as [|x a IH]; [done|].
  change (String x ((a +:+ b) +:+ c) = String x (a +:+ (b +:+ c))). by f_equal.
Qed.

Lemma string_app_inj_r (s1 s2 t : string) : s1 +:+ t = s2 +:+ t → s1 = s2.
Proof.
  revert s2. induction s1 as [|c1 s1 IH]; intros [|c2 s2] Heq.
  - done.
  - apply (f_equal String.length) in Heq.
    rewrite !string_length_app in Heq. cbn [String.length] in Heq. lia.
  - apply (f_equal String.length) in Heq.
    rewrite !string_length_app in Heq. cbn [String.length] in Heq. lia.
  - simpl in Heq. injection Heq as -> Heq. f_equal. by apply IH.
Qed.

Lemma to_int_not_nil (z : Z) :
  Z.to_int z ≠ Decimal.Pos Decimal.Nil ∧ Z.to_int z ≠ Decimal.Neg Decimal.Nil.
Proof.
  destruct z as [|p|p]; simpl; split; try discriminate;
    intros [= Hnil]; by apply DecimalPos.Unsigned.to_uint_nonnil in Hnil.
Qed.

(** [str] is the decimal numeral: reading it back gives the number. *)
Lemma py_str_read (z : Z) : NilZero.int_of_string (py_str z) = Some (Z.to_int z).
Proof. unfold py_str. destruct (to_int_not_nil z). by apply NilZero.isi. Qed.

Lemma py_str_inj (a b : Z) : py_str a = py_str b → a = b.
Proof.
  intros Heq. apply DecimalZ.to_int_inj.
  pose proof (py_str_read a) as Ha. rewrite Heq, py_str_read in Ha. congruence.
Qed.

Lemma to_uint_no_leading_zero (p : positive) d : Pos.to_uint p ≠ Decimal.D0 d.
Proof.
  intros Hd.
  assert (Decimal.unorm (Pos.to_uint p) = Pos.to_uint p) as Hnorm.
  { rewrite <- DecimalPos.Unsigned.to_of, DecimalPos.Unsigned.of_to. done. }
  rewrite Hd, DecimalFacts.unorm_D0 in Hnorm. unfold Decimal.unorm in Hnorm.
  destruct (Decimal.nzhead d) eqn:Hnz.
  - apply (DecimalPos.Unsigned.to_uint_nonzero p). rewrite Hd. congruence.
  - by apply DecimalFacts.nzhead_nonzero in Hnz.
  - discriminate.
  - discriminate.
  - discriminate.
  - discriminate.
  - discriminate.
  - discriminate.
  - discriminate.
  - discriminate.
  - discriminate.
Qed.

(** The numeral of a positive number starts with a digit from 1 to 9. *)
Lemma py_str_first (i : Z) :
  1 ≤ i →
  ∃ c rest, py_str i = String c rest ∧ c ≠ "0"%char ∧ c ≠ "/"%char ∧ c ≠ "-"%char.
Proof.
  intros Hi. destruct i as [|p|p]; [lia| |lia].
  unfold py_str. simpl.
  pose proof (to_uint_no_leading_zero p) as Hz.
  pose proof (DecimalPos.Unsigned.to_uint_nonnil p) as Hnil.
  destruct (Pos.to_uint p) as [|d|d|d|d|d|d|d|d|d|d]; simpl;
    [done|by destruct (Hz d)|..]; eexists _, _; (split; [reflexivity|done]).
Qed.

Lemma os_path_join_relative (a b : string) :
  starts_with_slash b = false →
  ∃ dir, (dir = a ∨ dir = a +:+ "/") ∧ ∀ b', starts_with_slash b' = false →
    os_path_join a b' = dir +:+ b'.
Proof.
  intros _. unfold os_path_join.
  destruct (bool_decide (a = ""%string) || ends_with_slash a).
  - exists a. split; [by left|]. by intros b' ->.
  - exists (a +:+ "/"). split; [by right|]. intros b' ->.
    by rewrite string_app_assoc.
Qed.

Lemma png_name_relative (i : Z) :
  1 ≤ i → starts_with_slash (py_str i +:+ ".png") = false.
Proof.
  intros Hi. destruct (py_str_first i Hi) as (c & rest & -> & _ & Hc & _).
  simpl. by apply bool_decide_eq_false_2.
Qed.

Lemma sample_path_inj (save_path : string) (i j : Z) :
  1 ≤ i → 1 ≤ j →
  sample_path save_path i = sample_path save_path j → i = j.
Proof.
  intros Hi Hj. unfold sample_path.
  destruct (os_path_join_relative save_path _ (png_name_relative i Hi))
    as (dir & _ & Hjoin).
  rewrite !Hjoin by (by apply png_name_relative). intros Heq.
  apply (inj (String.app dir)) in Heq. apply string_app_inj_r in Heq.
  by apply py_str_inj.
Qed.

Lemma NoDup_py_range a b : NoDup (py_range a b).
Proof.
  unfold py_range. apply NoDup_fmap_2; [|apply NoDup_seq].
  intros i j Hij. lia.
Qed.

Lemma NoDup_sample_paths (save_path : string) (k : Z) :
  NoDup (sample_path save_path <$> py_range 1 k).
Proof.
  apply NoDup_fmap_2_strong; [|apply NoDup_py_range].
  intros i j Hi Hj. apply elem_of_py_range in Hi, Hj.
  apply sample_path_inj; lia.
Qed.

End FileNames.

(** ** The sample loop *)

Section SampleLoop.
Context `{Torch}.
Variables (args : Args) (gen : generator) (save_path : string).

(** A run of iterations that all complete writes their files, one each. *)
Lemma iterations_ok (nums : list Z) w w' :
  for_each nums (sample_iteration args gen save_path) w = (Ok (), w') →
  written (trace w') = written (trace w) ++ (sample_path save_path <$> nums)
  ∧ dom (files w') = dom (files w) ∪ list_to_set (sample_path save_path <$> nums).
Proof.
  revert w. induction nums as [|i nums IH]; intros w Hrun; simpl in *.
  - injection Hrun as <-. rewrite app_nil_r. split; [done|].
    by rewrite (right_id_L ∅ (∪)).
  - apply bind_inv in Hrun as [([] & w1 & Hi & Hrest)|(e & _ & ?)]; [|done].
    apply sample_iteration_outcome in Hi
      as [(_ & img & Hf & Ht)|(e & ? & _)]; [|done].
    destruct (IH _ Hrest) as [Ht' Hf']. split.
    + rewrite Ht', Ht, <- app_assoc. done.
    + rewrite Hf', Hf, dom_insert_L.
      by rewrite (assoc_L (∪)), (comm_L (∪) (dom (files w))).
Qed.

Lemma print_run line (w : world) :
  print line w = (Ok (), World (heap w) (rng w) (files w) (trace w ++ [EPrint line])).
Proof. reflexivity. Qed.

Lemma quiet_load_generator : quiet (load_generator args).
Proof.
  unfold load_generator, print, call_Generator, call_load_state_dict.
  repeat (first [ apply quiet_bind; [|intros ?]
                | apply quiet_lift
                | apply quiet_log; intros; discriminate ]).
Qed.

Lemma quiet_print line : quiet (print line).
Proof. apply quiet_log. intros; discriminate. Qed.

(** The part of [main] that comes after the generator is loaded. *)
Lemma main_inv w r w' :
  main args w = (r, w') →
  (∃ e, r = Raise e ∧ load_generator args w = (Raise e, w'))
  ∨ ∃ g ws r1 w1,
      load_generator args w = (Ok g, ws)
      ∧ sample_loop args g (out_dir args)
          (World (heap ws) (rng ws) (files ws)
                 (trace ws ++ [EPrint "Generating scale synchronized images ..."]))
        = (r1, w1)
      ∧ match r1 with
        | Ok _ => r = Ok ()
                  ∧ w' = World (heap w1) (rng w1) (files w1)
                           (trace w1 ++ [EPrint (summary args (out_dir args))])
        | Raise e => r = Raise e ∧ w' = w1
        end.
Proof.
  unfold main. intros Hr.
  apply bind_inv in Hr as [(g & ws & Hload & Hr)|(e & Hload & ->)]; [|left; eauto].
  right. exists g, ws. simpl in Hr.
  rewrite (bind_run _ _ _ _ _ (print_run _ ws)) in Hr.
  apply bind_inv in Hr as [([] & w1 & Hloop & Hr)|(e & Hloop & ->)].
  - exists (Ok ()), w1. rewrite print_run in Hr. injection Hr as <- <-. done.
  - exists (Raise e), w'. done.
Qed.

End SampleLoop.

Section SampleLoopClaims.
Context `{Torch}.

(** C5: a run of [main] that completes, with [num_samples = N >= 1], writes
    exactly [N] files, all different, in the order [1, 2, ..., N]; the file
    of iteration [i] is [os.path.join(out_dir, str(i) + ".png")], where
    [str(i)] is the plain decimal numeral of [i], without a leading zero;
    for [N = 2] these are [1.png] and [2.png] in the output directory. *)
Theorem sample_loop_writes (args : Args) (w w' : world) :
  1 ≤ num_samples args →
  main args w = (Ok (), w') →
  let paths := sample_path (out_dir args) <$> py_range 1 (num_samples args + 1) in
  written (trace w') = written (trace w) ++ paths
  ∧ length paths = Z.to_nat (num_samples args)
  ∧ NoDup paths
  ∧ dom (files w') = dom (files w) ∪ list_to_set paths
  ∧ (∀ i, 1 ≤ i ≤ num_samples args →
       paths !! Z.to_nat (i - 1)
       = Some (os_path_join (out_dir args) (py_str i +:+ ".png"))
       ∧ NilZero.int_of_string (py_str i) = Some (Z.to_int i)
       ∧ ∀ rest, py_str i ≠ String "0" rest)
  ∧ (num_samples args = 2 →
       paths = [os_path_join (out_dir args) "1.png";
                os_path_join (out_dir args) "2.png"]).
Proof.
  intros HN Hmain paths.
  apply main_inv in Hmain
    as [(e & ? & _)|(g & ws & r1 & w1 & Hload & Hloop & Hr)]; [done|].
  destruct r1 as [[]|e]; [|by destruct Hr].
  destruct Hr as [_ ->]. apply quiet_load_generator in Hload as [Hf Ht].
  apply iterations_ok in Hloop as [Ht1 Hf1]. simpl in *.
  rewrite written_app in Ht1. simpl in Ht1. rewrite app_nil_r in Ht1.
  split; [|split; [|split; [|split; [|split]]]].
  - rewrite written_app. simpl. rewrite app_nil_r. by rewrite Ht1, Ht.
  - unfold paths. rewrite length_fmap, py_range_length. lia.
  - apply NoDup_sample_paths.
  - by rewrite Hf1, Hf.
  - intros i Hi. split; [|split].
    + unfold paths, py_range. rewrite list_lookup_fmap, list_lookup_fmap.
      rewrite lookup_seq_lt by lia. simpl.
      by replace (1 + Z.of_nat (Z.to_nat (i - 1))) with i by lia.
    + apply py_str_read.
    + intros rest Hrest. destruct (py_str_first i) as (c & rest' & Hc & Hz & _); [lia|].
      congruence.
  - intros HN2. unfold paths. by rewrite HN2.
Qed.

(** C7: when iterations [1] to [k-1] complete and iteration [k] raises, the
    loop raises the same exception with the world as iteration [k] left it,
    nothing placed after the loop runs (the summary is not printed), the
    files written are those of iterations [1] to [k-1] and no other, and
    iteration [k] wrote nothing. *)
Theorem sample_loop_failure (args : Args) (gen : generator) (save_path : string)
    (k : Z) (e : exn) (w0 w1 w2 : world) :
  1 ≤ k ≤ num_samples args →
  for_each (py_range 1 k) (sample_iteration args gen save_path) w0 = (Ok (), w1) →
  sample_iteration args gen save_path k w1 = (Raise e, w2) →
  sample_loop args gen save_path w0 = (Raise e, w2)
  ∧ (sample_loop args gen save_path ;; print (summary args save_path)) w0
    = (Raise e, w2)
  ∧ written (trace w2)
    = written (trace w0) ++ (sample_path save_path <$> py_range 1 k)
  ∧ dom (files w2)
    = dom (files w0) ∪ list_to_set (sample_path save_path <$> py_range 1 k)
  ∧ files w2 = files w1.
Proof.
  intros Hk Hdone Hfail.
  assert (sample_loop args gen save_path w0 = (Raise e, w2)) as Hloop.
  { unfold sample_loop.
    rewrite (py_range_split 1 k (num_samples args + 1)) by lia.
    rewrite (py_range_cons k) by lia.
    by apply (for_each_raise _ _ _ _ _ w1). }
  split; [done|]. split; [by apply bind_raise|].
  apply iterations_ok in Hdone as [Ht Hf].
  apply sample_iteration_outcome in Hfail
    as [(? & _)|(e' & _ & Hf2 & Ht2)]; [done|].
  split; [congruence|]. split; [congruence|done].
Qed.

(** C10: with [num_samples = N <= 0], once the generator is built and
    loaded, the loop runs no iteration: [main] completes, draws no latent
    vector, runs no inference, writes no file, and its last output line is
    the summary with [N] as the number of images. *)
Theorem no_samples (args : Args) (g g' : generator) (w : world) :
  num_samples args ≤ 0 →
  Generator (depth args) (latent_size args) = Ok g →
  load_state_dict g (generator_file args) = Ok g' →
  py_range 1 (num_samples args + 1) = []
  ∧ main args w
    = (Ok (),
       World (heap w) (rng w) (files w)
         (trace w ++
          [ EPrint "Creating generator object ...";
            EConstruct (depth args) (latent_size args);
            EPrint ("Loading the generator weights from: " +:+ generator_file args);
            ELoad (generator_file args);
            EPrint "Generating scale synchronized images ...";
            EPrint ("Generated " +:+ py_str (num_samples args) +:+ " images at "
                    +:+ out_dir args) ])).
Proof.
  intros HN Hgen Hload.
  assert (py_range 1 (num_samples args + 1) = []) as Hrange
    by (apply py_range_nil; lia).
  split; [done|].
  unfold main, load_generator, sample_loop, call_Generator, call_load_state_dict,
    print, log, lift, summary, mbind, M_bind.
  rewrite Hrange. simpl. rewrite Hgen. simpl. rewrite Hload. simpl.
  rewrite <- !app_assoc. reflexivity.
Qed.

End SampleLoopClaims.

Section SampleLoopExamples.
Import ShapeModel.

Lemma sample_loop_writes_witness :
  1 ≤ num_samples sample_args
  ∧ ∃ w', main (H := torch []) sample_args (empty_world []) = (Ok (), w')
          ∧ written (trace w') = ["out/1.png"; "out/2.png"]%string
          ∧ NoDup ["out/1.png"; "out/2.png"]%string.
Proof.
  split; [done|].
  destruct (main (H := torch []) sample_args (empty_world [])) as [r w'] eqn:Hmain.
  assert (r = Ok ()) as ->.
  { change r with (fst (r, w')). rewrite <- Hmain. vm_compute. reflexivity. }
  exists w'. split; [reflexivity|].
  destruct (sample_loop_writes (H := torch []) sample_args (empty_world []) w')
    as (Hwritten & _ & Hnodup & _); [done|exact Hmain|].
  split; [exact Hwritten|exact Hnodup].
Defined.

Lemma sample_loop_failure_witness :
  1 ≤ 2 ≤ num_samples sample_args
  ∧ ∃ w1 w2,
      for_each (py_range 1 2)
        (sample_iteration (H := torch ["out/2.png"%string]) sample_args 3 "out/")
        (empty_world ["out/2.png"%string]) = (Ok (), w1)
      ∧ sample_iteration (H := torch ["out/2.png"%string]) sample_args 3 "out/" 2 w1
        = (Raise (IOError "out/2.png"), w2)
      ∧ sample_loop (H := torch ["out/2.png"%string]) sample_args 3 "out/"
          (empty_world ["out/2.png"%string])
        = (Raise (IOError "out/2.png"), w2)
      ∧ written (trace w2) = ["out/1.png"%string].
Proof.
  split; [done|].
  destruct (for_each (py_range 1 2)
              (sample_iteration (H := torch ["out/2.png"%string]) sample_args 3 "out/")
              (empty_world ["out/2.png"%string])) as [r1 w1] eqn:Hdone.
  assert (r1 = Ok ()) as ->.
  { change r1 with (fst (r1, w1)). rewrite <- Hdone. vm_compute. reflexivity. }
  destruct (sample_iteration (H := torch ["out/2.png"%string]) sample_args 3 "out/" 2 w1)
    as [r2 w2] eqn:Hfail.
  assert (r2 = Raise (IOError "out/2.png")) as ->.
  { change r2 with (fst (r2, w2)). rewrite <- Hfail.
    change w1 with (snd (Ok (), w1)). rewrite <- Hdone. vm_compute. reflexivity. }
  exists w1, w2. split; [reflexivity|]. split; [exact Hfail|].
  destruct (sample_loop_failure (H := torch ["out/2.png"%string]) sample_args 3 "out/" 2
              (IOError "out/2.png") (empty_world ["out/2.png"%string]) w1 w2)
    as (Hloop & _ & Hwritten & _); [done|exact Hdone|exact Hfail|].
  split; [exact Hloop|exact Hwritten].
Defined.

Lemma no_samples_witness :
  num_samples idle_args ≤ 0
  ∧ main (H := torch []) idle_args (empty_world [])
    = (Ok (),
       @World (torch []) ∅ 0%nat ∅
         ([] ++
          [ EPrint "Creating generator object ...";
            EConstruct 3 2;
            EPrint "Loading the generator weights from: GAN_GEN_5.pth";
            ELoad "GAN_GEN_5.pth";
            EPrint "Generating scale synchronized images ...";
            EPrint "Generated -1 images at out/" ])).
Proof.
  split; [done|].
  apply (no_samples (H := torch []) idle_args 3 3 (empty_world []));
    [done|reflexivity|reflexivity].
Defined.

End SampleLoopExamples.

(** ** The command line *)

Section CommandLine.
Variable py_int : string → option Z.

Lemma classify_all_elem (argv : list string) (tok : string) (c : token_class) :
  (tok, c) ∈ classify_all argv →
  c = Separator ∨ c = Positional ∨ (tok ∈ argv ∧ c = classify tok).
Proof.
  induction argv as [|t argv IH]; simpl; [by intros ?%elem_of_nil|].
  destruct (String.eqb t "--").
  - intros [Heq|Hin]%elem_of_cons; [injection Heq as -> ->; by left|].
    apply list_elem_of_fmap in Hin as (t' & [= -> ->] & _). right. by left.
  - intros [Heq|Hin]%elem_of_cons.
    + injection Heq as -> ->. right. right. split; [left|done].
    + destruct (IH Hin) as [?|[?|[? ?]]]; auto. right. right. split; [by right|done].
Qed.

Lemma store_keeps_generator_file (d : dest) (value : string) (ns ns' : namespace) :
  d ≠ DGeneratorFile → store py_int d value ns = inr ns' →
  ns_generator_file ns' = ns_generator_file ns.
Proof.
  intros Hd. unfold store.
  destruct d; try done; try destruct (py_int value); intros [= <-]; done.
Qed.

Lemma help_chain_outcome (explicit_arg : string) :
  help_chain explicit_arg = HelpExit ∨ ∃ err, help_chain explicit_arg = UsageError err.
Proof.
  induction explicit_arg as [|c rest IH]; simpl; [right; eauto|].
  destruct rest as [|c' rest']; destruct (Ascii.eqb c "h"); eauto.
Qed.

(** Strings that select neither [--generator_file] nor the help lead to a
    usage error; with a help request the parse may also end in the help. *)
Lemma consume_missing (n : nat) (toks : list (string * token_class))
    (ns : namespace) (extras : bool) :
  (length toks ≤ n)%nat →
  Forall (λ t, ∀ name e, snd t ≠ Optional name (Some DGeneratorFile) e) toks →
  ns_generator_file ns = None →
  (∃ err, consume py_int toks ns extras = UsageError err)
  ∨ (consume py_int toks ns extras = HelpExit
     ∧ Exists (λ t, ∃ name e, snd t = Optional name (Some DHelp) e) toks).
Proof.
  revert toks ns extras. induction n as [|n IH]; intros toks ns extras Hlen Hgf Hns.
  { destruct toks; [|simpl in Hlen; lia]. simpl. unfold finish. rewrite Hns. eauto. }
  destruct toks as [|[tok c] rest].
  { simpl. unfold finish. rewrite Hns. eauto. }
  apply Forall_cons in Hgf as [Hc Hrest]. simpl in Hc, Hlen.
  assert (∀ ns' extras',
            ns_generator_file ns' = None →
            (∃ err, consume py_int rest ns' extras' = UsageError err)
            ∨ (consume py_int rest ns' extras' = HelpExit
               ∧ Exists (λ t, ∃ name e, snd t = Optional name (Some DHelp) e)
                   ((tok, c) :: rest))) as IHrest.
  { intros ns' extras' Hns'.
    destruct (IH rest ns' extras') as [?|[? ?]]; [lia|done|done|by left|].
    right. split; [done|]. by apply Exists_cons_tl. }
  destruct c as [| |name [d|] [explicit_arg|]|]; simpl; try by apply IHrest.
  - (* an option with its value after [=] *)
    destruct (decide (d = DHelp)) as [->|Hhelp].
    + assert (Exists (λ t, ∃ name e, snd t = Optional name (Some DHelp) e)
                ((tok, Optional name (Some DHelp) (Some explicit_arg)) :: rest))
        as Hex by (apply Exists_cons_hd; simpl; eauto).
      destruct (String.prefix "--" name); [left; by eauto|].
      destruct (help_chain_outcome explicit_arg) as [->|[err ->]]; eauto.
    + assert (d ≠ DGeneratorFile) as Hd by (intros ->; by eapply Hc).
      destruct (store py_int d explicit_arg ns) as [err|ns'] eqn:Hstore.
      * destruct d; try done; left; eauto.
      * pose proof (store_keeps_generator_file _ _ _ _ Hd Hstore) as Hkeep.
        rewrite Hns in Hkeep.
        destruct d; try done; by apply IHrest.
  - (* an option that takes the next string *)
    destruct (decide (d = DHelp)) as [->|Hhelp].
    + right. split; [done|]. apply Exists_cons_hd. simpl. eauto.
    + assert (d ≠ DGeneratorFile) as Hd by (intros ->; by eapply Hc).
      destruct rest as [|[value c'] rest'].
      { destruct d; try done; left; eauto. }
      apply Forall_cons in Hrest as [_ Hrest']. simpl in Hlen.
      destruct c'; try (destruct d; try done; left; by eauto).
      destruct (store py_int d value ns) as [err|ns'] eqn:Hstore.
      * destruct d; try done; left; eauto.
      * pose proof (store_keeps_generator_file _ _ _ _ Hd Hstore) as Hkeep.
        rewrite Hns in Hkeep.
        destruct (IH rest' ns' extras) as [?|[? ?]]; [lia|done|done| |].
        -- destruct d; try done; by left.
        -- destruct d; try done; right; (split; [done|]);
             by do 2 apply Exists_cons_tl.
Qed.

Lemma parse_args_missing (argv : list string) :
  Forall (λ tok, names DGeneratorFile tok = false) argv →
  (∃ err, parse_args py_int argv = UsageError err)
  ∨ (parse_args py_int argv = HelpExit
     ∧ Exists (λ tok, names DHelp tok = true) argv).
Proof.
  intros Habsent. unfold parse_args.
  destruct (List.find _ (classify_all argv)) as [[tok c]|]; [left; eauto|].
  destruct (consume_missing (length (classify_all argv)) (classify_all argv)
              defaults false) as [?|[Hhelp Hex]]; [done| |done|by left|].
  - apply Forall_forall. intros [tok c] Hin name e Hc. simpl in Hc. subst c.
    apply classify_all_elem in Hin as [?|[?|[Hin Hc]]]; [done|done|].
    rewrite Forall_forall in Habsent. specialize (Habsent _ Hin).
    unfold names in Habsent. rewrite <- Hc in Habsent.
    by rewrite bool_decide_eq_true_2 in Habsent.
  - right. split; [done|]. apply Exists_exists in Hex as ([tok c] & Hin & name & e & Hc).
    simpl in Hc. subst c.
    apply classify_all_elem in Hin as [?|[?|[Hin Hc]]]; [done|done|].
    apply Exists_exists. exists tok. split; [done|].
    unfold names. rewrite <- Hc. by apply bool_decide_eq_true_2.
Qed.

End CommandLine.

(** ** The script: a missing [--generator_file] *)

Section ScriptClaims.
Context `{Torch}.

(** C6, as the code has it: when no command-line string selects
    [--generator_file], the script ends inside argument parsing, before the
    generator is built, loaded or run and before any sample is drawn: with a
    usage error and exit status 2, or, when a string asks for the help, with
    the help text and exit status 0. *)
Theorem missing_generator_file (py_int : string → option Z) (argv : list string)
    (w : world) :
  Forall (λ tok, names DGeneratorFile tok = false) argv →
  ∃ code ev,
    script py_int argv w
    = (Raise (SystemExit code),
       World (heap w) (rng w) (files w) (trace w ++ [ev]))
    ∧ ((code = 2 ∧ ∃ err, ev = EArgparseError err)
       ∨ (code = 0 ∧ ev = EArgparseHelp
          ∧ Exists (λ tok, names DHelp tok = true) argv)).
Proof.
  intros Habsent. unfold script, parse_arguments.
  destruct (parse_args_missing py_int argv Habsent) as [[err ->]|[-> Hhelp]].
  - exists 2, (EArgparseError err). split; [done|]. left. eauto.
  - exists 0, EArgparseHelp. split; [done|]. right. eauto.
Qed.

End ScriptClaims.

Section ScriptExamples.
Import ShapeModel.

Lemma missing_generator_file_witness :
  Forall (λ tok, names DGeneratorFile tok = false) ["--depth"; "4"]%string
  ∧ ∃ code ev,
      script (H := torch []) int_of_decimal ["--depth"; "4"]%string (empty_world [])
      = (Raise (SystemExit code), @World (torch []) ∅ 0%nat ∅ ([] ++ [ev]))
      ∧ ((code = 2 ∧ ∃ err, ev = EArgparseError err)
         ∨ (code = 0 ∧ ev = EArgparseHelp
            ∧ Exists (λ tok, names DHelp tok = true) ["--depth"; "4"]%string)).
Proof.
  split; [repeat constructor|].
  apply (missing_generator_file (H := torch []) int_of_decimal
           ["--depth"; "4"]%string (empty_world [])).
  repeat constructor.
Defined.

(** The claim of a usage error fails for [-h]: the script prints the help and
    exits with status 0. *)
Lemma help_without_generator_file :
  Forall (λ tok, names DGeneratorFile tok = false) ["-h"]%string
  ∧ script (H := torch []) int_of_decimal ["-h"]%string (empty_world [])
    = (Raise (SystemExit 0), @World (torch []) ∅ 0%nat ∅ [EArgparseHelp])
  ∧ ¬ ∃ err w',
        script (H := torch []) int_of_decimal ["-h"]%string (empty_world [])
        = (Raise (SystemExit 2), w')
        ∧ trace w' = [EArgparseError err].
Proof.
  split; [repeat constructor|]. split; [reflexivity|].
  intros (err & w' & Hrun & _). discriminate Hrun.
Qed.

End ScriptExamples.

(** ** Where the batch dimension is removed *)

Section BatchDimension.
Context `{Torch}.





Section AnyOutcome.
Variables (images : loc) (l : list tensor).

Lemma upscale_body_any (a : nat) cur x w :
  (1 ≤ a < length cur)%nat →
  heap w !! images = Some cur →
  cur !! (length cur - 1 - a)%nat = Some x →
  upscale_body images (Z.of_nat a) w
  = match interpolate x (2 ^ Z.of_nat a) with
    | Ok y =>
        (Ok (), World (<[images := <[(length cur - 1 - a)%nat := y]> cur]> (heap w))
                      (rng w) (files w)
                      (trace w ++ [EInterpolate x (2 ^ Z.of_nat a)]))
    | Raise e =>
        (Raise e, World (heap w) (rng w) (files w)
                        (trace w ++ [EInterpolate x (2 ^ Z.of_nat a)]))
    end.
Proof.
  intros Ha Hheap Hx. unfold upscale_body.
  rewrite (bind_run _ _ _ _ _ (len_run _ _ _ Hheap)).
  replace (Z.of_nat (length cur) - 1 - Z.of_nat a)
    with (Z.of_nat (length cur - 1 - a)) by lia.
  rewrite (bind_run _ _ _ _ _ (getitem_run _ _ _ _ _ Hheap Hx)).
  destruct (interpolate x (2 ^ Z.of_nat a)) as [y|e] eqn:Hint.
  - rewrite (bind_run _ _ _ _ _ (call_interpolate_run _ _ _ _ Hint)).
    rewrite (bind_run _ _ _ (Z.of_nat (length cur))
               (World (heap w) (rng w) (files w)
                      (trace w ++ [EInterpolate x (2 ^ Z.of_nat a)])));
      [|by apply len_run].
    replace (Z.of_nat (length cur) - 1 - Z.of_nat a)
      with (Z.of_nat (length cur - 1 - a)) by lia.
    by rewrite (setitem_run _ cur) by (done || lia).
  - apply bind_raise. unfold call_interpolate, log, lift, mbind, M_bind, py_pow2.
    by rewrite Hint.
Qed.



End AnyOutcome.
End BatchDimension.

Section BatchDimensionClaim.
Context `{Torch} `{!TorchLaws}.








End BatchDimensionClaim.

Section BatchDimensionTheorem.
Context `{Torch} `{!TorchLaws}.


End BatchDimensionTheorem.

Section BatchDimensionExamples.
Import ShapeModel.




End BatchDimensionExamples.

(** * Further properties *)

(** ** Every outcome of progressive_upscaling *)

Section UpscalingOutcomes.
Context `{Torch}.
Variables (images : loc) (l : list tensor).

Lemma upscale_calls_from_cons (a n : nat) x :
  l !! (length l - 1 - a)%nat = Some x →
  upscale_calls_from l a (S n)
  = EInterpolate x (2 ^ Z.of_nat a) :: upscale_calls_from l (S a) n.
Proof. intros Hx. unfold upscale_calls_from. simpl. by rewrite Hx. Qed.

(** The loop from factor [a] on, whatever its outcome: [m] factors went
    through, and the list holds their results, the rest being as before. *)
Lemma upscale_loop_exact (k a : nat) cur w r w' :
  (1 ≤ a)%nat → (a + k = Nat.max 1 (length l))%nat →
  heap w !! images = Some cur → length cur = length l →
  (∀ i, (i < length l - a)%nat → cur !! i = l !! i) →
  for_each (py_range (Z.of_nat a) (Z.of_nat (length l))) (upscale_body images) w
  = (r, w') →
  ∃ (m : nat) (cur' : list tensor),
    (m ≤ k)%nat
    ∧ w' = World (<[images := cur']> (heap w)) (rng w) (files w)
             (trace w ++ upscale_calls_from l a
                           (match r with Ok _ => m | Raise _ => S m end))
    ∧ length cur' = length l
    ∧ (∀ i, (i < length l - (a + m))%nat → cur' !! i = l !! i)
    ∧ (∀ i, (length l - a ≤ i)%nat → cur' !! i = cur !! i)
    ∧ (∀ i x y, (length l - (a + m) ≤ i < length l - a)%nat →
         l !! i = Some x → cur' !! i = Some y →
         interpolate x (2 ^ Z.of_nat (length l - 1 - i)) = Ok y)
    ∧ match r with
      | Ok _ => m = k
      | Raise e =>
          (m < k)%nat
          ∧ ∃ x, l !! (length l - 1 - (a + m))%nat = Some x
                 ∧ interpolate x (2 ^ Z.of_nat (a + m)) = Raise e
      end.
Proof.
  revert a cur w. induction k as [|k IH]; intros a cur w Ha Hak Hheap Hlen Hsame.
  - rewrite py_range_nil by lia. intros [= <- <-]. exists 0%nat, cur.
    split; [done|]. split.
    { unfold upscale_calls_from. simpl. rewrite app_nil_r.
      rewrite (insert_id _ _ _ Hheap). by rewrite world_eta. }
    split; [done|]. split; [intros i Hi; apply Hsame; lia|].
    split; [done|]. split; [intros i x y Hi; lia|done].
  - rewrite py_range_cons by lia. simpl for_each.
    destruct (lookup_lt_is_Some_2 l (length l - 1 - a)) as [x Hx]; [lia|].
    assert (cur !! (length cur - 1 - a)%nat = Some x) as Hcx
      by (rewrite Hlen, Hsame by lia; done).
    pose proof (upscale_body_any images a cur x w) as Hbody.
    rewrite Hlen in Hbody. specialize (Hbody ltac:(lia) Hheap).
    rewrite Hlen in Hcx. specialize (Hbody Hcx).
    destruct (interpolate x (2 ^ Z.of_nat a)) as [y|e] eqn:Hint.
    + rewrite (bind_run _ _ _ _ _ Hbody).
      replace (Z.of_nat a + 1) with (Z.of_nat (S a)) by lia. intros Hrest.
      apply (IH (S a) (<[(length l - 1 - a)%nat := y]> cur)) in Hrest
        as (m & cur' & Hm & Hw' & Hlen' & Huntouched & Hkept & Hup & Hr);
        [|lia|lia|simpl; by rewrite lookup_insert_eq|by rewrite length_insert|].
      2:{ intros i Hi. rewrite list_lookup_insert_ne by lia. apply Hsame. lia. }
      exists (S m), cur'. split; [lia|]. split.
      { rewrite Hw'. simpl. rewrite insert_insert_eq, <- app_assoc. simpl.
        destruct r; by rewrite (upscale_calls_from_cons a _ x Hx). }
      split; [done|]. split.
      { intros i Hi. apply Huntouched. lia. }
      split.
      { intros i Hi. rewrite Hkept by lia. apply list_lookup_insert_ne. lia. }
      split.
      { intros i x' y' Hi Hx' Hy'.
        destruct (decide (i = (length l - 1 - a)%nat)) as [->|Hne].
        - rewrite Hkept in Hy' by lia.
          rewrite list_lookup_insert_eq in Hy' by lia.
          rewrite Hx in Hx'. injection Hx' as <-. injection Hy' as <-.
          by replace (length l - 1 - (length l - 1 - a))%nat with a by lia.
        - apply (Hup i); [lia|done|done]. }
      destruct r as [[]|e]; [lia|].
      destruct Hr as (Hmk & x' & Hx' & Hraise). split; [lia|].
      exists x'. by replace (a + S m)%nat with (S a + m)%nat by lia.
    + rewrite (bind_raise _ _ _ _ _ Hbody). intros [= <- <-].
      exists 0%nat, cur. split; [lia|]. split.
      { rewrite (insert_id _ _ _ Hheap).
        by rewrite (upscale_calls_from_cons a 0 x Hx). }
      split; [done|]. split; [intros i Hi; apply Hsame; lia|].
      split; [done|]. split; [intros i x' y' Hi; lia|].
      split; [lia|]. exists x. by rewrite Nat.add_0_r.
Qed.

Lemma progressive_upscaling_exact w r w' :
  heap w !! images = Some l →
  progressive_upscaling images w = (r, w') →
  ∃ (m : nat) (cur' : list tensor),
    (m ≤ length l - 1)%nat
    ∧ w' = World (<[images := cur']> (heap w)) (rng w) (files w)
             (trace w ++ upscale_calls_from l 1
                           (match r with Ok _ => m | Raise _ => S m end))
    ∧ length cur' = length l
    ∧ (∀ i, (i < length l - (1 + m))%nat → cur' !! i = l !! i)
    ∧ cur' !! (length l - 1)%nat = l !! (length l - 1)%nat
    ∧ (∀ i x y, (length l - (1 + m) ≤ i < length l - 1)%nat →
         l !! i = Some x → cur' !! i = Some y →
         interpolate x (2 ^ Z.of_nat (length l - 1 - i)) = Ok y)
    ∧ match r with
      | Ok ℓ => ℓ = images ∧ m = (length l - 1)%nat
      | Raise e =>
          (m < length l - 1)%nat
          ∧ ∃ x, l !! (length l - 1 - (1 + m))%nat = Some x
                 ∧ interpolate x (2 ^ Z.of_nat (1 + m)) = Raise e
      end.
Proof.
  intros Hheap. unfold progressive_upscaling.
  rewrite (bind_run _ _ _ _ _ (len_run _ _ _ Hheap)). intros Hr.
  change (py_range 1) with (py_range (Z.of_nat 1)) in Hr.
  apply bind_inv in Hr as [([] & w1 & Hloop & [= <- <-])|(e & Hloop & ->)].
  - apply (upscale_loop_exact (length l - 1) 1 l) in Hloop
      as (m & cur' & Hm & Hw' & Hlen' & Huntouched & Hkept & Hup & Hr);
      [|lia|lia|done|done|done].
    exists m, cur'. split; [done|]. split; [done|]. split; [done|].
    split; [done|]. split; [apply Hkept; lia|]. split; [done|]. by split.
  - apply (upscale_loop_exact (length l - 1) 1 l) in Hloop
      as (m & cur' & Hm & Hw' & Hlen' & Huntouched & Hkept & Hup & Hr);
      [|lia|lia|done|done|done].
    exists m, cur'. split; [done|]. split; [done|]. split; [done|].
    split; [done|]. split; [apply Hkept; lia|]. split; [done|]. done.
Qed.

End UpscalingOutcomes.

Section UpscalingOutcomeTheorems.
Context `{Torch}.

Lemma upscale_calls_from_all (l : list tensor) :
  upscale_calls l = upscale_calls_from l 1 (length l - 1).
Proof. reflexivity. Qed.

(** The converse of the run lemma: a call that returns has replaced every
    image but the last by its upscaled version. *)
Lemma progressive_upscaling_ok_inv (images : loc) (l : list tensor) ℓ w w' :
  heap w !! images = Some l →
  progressive_upscaling images w = (Ok ℓ, w') →
  ℓ = images
  ∧ ∃ ys, length ys = length l
          ∧ (∀ i x y, l !! i = Some x → ys !! i = Some y →
               upscale_one (length l) i x = Ok y)
          ∧ w' = World (<[images := ys]> (heap w)) (rng w) (files w)
                   (trace w ++ upscale_calls l).
Proof.
  intros Hheap Hrun.
  apply (progressive_upscaling_exact images l) in Hrun
    as (m & ys & _ & Hw' & Hlen & _ & Hlast & Hup & -> & ->); [|done].
  split; [done|]. exists ys. split; [done|]. split; [|done].
  intros i x y Hx Hy. unfold upscale_one. case_decide as Hi.
  - apply (Hup i); [lia|done|done].
  - apply lookup_lt_Some in Hx as Hlt.
    replace i with (length l - 1)%nat in Hx, Hy by lia. congruence.
Qed.

(** X1: when progressive_upscaling raises, the exception is the one
    [interpolate] raised for some factor, on the original image at index
    [n-1-factor]; the caller's list is left half done: the images the earlier
    factors reached hold their upscaled versions, every other image, the one
    that failed included, is as it was; the calls made are those of the
    factors 1 to [factor], in order, and nothing else in the world changed. *)
Theorem progressive_upscaling_failure (images : loc) (l : list tensor) (e : exn)
    (w w' : world) :
  heap w !! images = Some l →
  progressive_upscaling images w = (Raise e, w') →
  ∃ (factor : nat) (x : tensor) (cur : list tensor),
    (1 ≤ factor ≤ length l - 1)%nat
    ∧ l !! (length l - 1 - factor)%nat = Some x
    ∧ interpolate x (2 ^ Z.of_nat factor) = Raise e
    ∧ w' = World (<[images := cur]> (heap w)) (rng w) (files w)
             (trace w ++ upscale_calls_from l 1 factor)
    ∧ length cur = length l
    ∧ (∀ i, (i < length l - factor)%nat → cur !! i = l !! i)
    ∧ cur !! (length l - 1)%nat = l !! (length l - 1)%nat
    ∧ (∀ i x y, (length l - factor ≤ i < length l - 1)%nat →
         l !! i = Some x → cur !! i = Some y →
         interpolate x (2 ^ Z.of_nat (length l - 1 - i)) = Ok y).
Proof.
  intros Hheap Hrun.
  apply (progressive_upscaling_exact images l) in Hrun
    as (m & cur & Hm & Hw' & Hlen & Huntouched & Hlast & Hup & Hmk & x & Hx & He);
    [|done].
  exists (1 + m)%nat, x, cur. split; [lia|]. do 6 (split; [done|]). exact Hup.
Qed.

(** X2: progressive_upscaling returns exactly when [interpolate] returns for
    every image but the last with the scale factor of its index; no other
    failure is possible (the indices it computes are always in range). *)
Theorem progressive_upscaling_returns_iff (images : loc) (l : list tensor) (w : world) :
  heap w !! images = Some l →
  (∃ ℓ w', progressive_upscaling images w = (Ok ℓ, w'))
  ↔ (∀ i x, l !! i = Some x → (i < length l - 1)%nat →
       ∃ y, interpolate x (2 ^ Z.of_nat (length l - 1 - i)) = Ok y).
Proof.
  intros Hheap. split.
  - intros (ℓ & w' & Hrun).
    apply (progressive_upscaling_ok_inv images l) in Hrun
      as (_ & ys & Hlen & Hys & _); [|done].
    intros i x Hx Hi.
    destruct (lookup_lt_is_Some_2 ys i) as [y Hy]; [lia|].
    exists y. specialize (Hys _ _ _ Hx Hy). unfold upscale_one in Hys.
    by rewrite decide_True in Hys.
  - intros Hall.
    destruct (upscaled_exists (λ i x y, upscale_one (length l) i x = Ok y) l)
      as (ys & Hlen & Hys).
    { intros i x Hx. unfold upscale_one. case_decide; [by apply Hall|by exists x]. }
    eexists images, _.
    apply (progressive_upscaling_run images l ys); [done| |done].
    intros i x y Hx Hy. destruct (Hys _ _ Hx) as (y' & Hy' & Hone). congruence.
Qed.

(** X3: whatever its outcome, progressive_upscaling changes nothing but the
    list it was given and the call log: the random state, the files and every
    other list are untouched, the list keeps its length and its last image,
    and the calls to [interpolate], at most [n-1] of them, are those of the
    first factors, each on an image as the caller passed it. *)
Theorem progressive_upscaling_frame (images : loc) (l : list tensor)
    (r : result loc) (w w' : world) :
  heap w !! images = Some l →
  progressive_upscaling images w = (r, w') →
  rng w' = rng w
  ∧ files w' = files w
  ∧ (∀ ℓ, ℓ ≠ images → heap w' !! ℓ = heap w !! ℓ)
  ∧ (∃ cur, heap w' !! images = Some cur
            ∧ length cur = length l
            ∧ cur !! (length l - 1)%nat = l !! (length l - 1)%nat)
  ∧ ∃ n, (n ≤ length l - 1)%nat
         ∧ trace w' = trace w ++ upscale_calls_from l 1 n.
Proof.
  intros Hheap Hrun.
  apply (progressive_upscaling_exact images l) in Hrun
    as (m & cur & Hm & -> & Hlen & _ & Hlast & _ & Hr); [|done]. simpl.
  split; [done|]. split; [done|]. split.
  { intros ℓ Hℓ. by rewrite lookup_insert_ne. }
  split.
  { exists cur. by rewrite lookup_insert_eq. }
  destruct r as [ℓ|e].
  - exists m. by split.
  - exists (S m). split; [lia|done].
Qed.

End UpscalingOutcomeTheorems.

Section UpscalingOutcomeExamples.
Import ShapeModel.

Lemma progressive_upscaling_failure_witness :
  heap (world_with broken_scales) !! 1%positive = Some broken_scales
  ∧ ∃ w', progressive_upscaling (H := torch []) 1%positive (world_with broken_scales)
          = (Raise (LibraryError "interpolate"), w')
          ∧ heap w' !! 1%positive = Some [[7]; [1; 3; 16; 16]; [1; 3; 16; 16]]
          ∧ ∃ (factor : nat) (x : list Z),
              broken_scales !! (length broken_scales - 1 - factor)%nat = Some x
              ∧ interpolate (Torch := torch []) x (2 ^ Z.of_nat factor)
                = Raise (LibraryError "interpolate").
Proof.
  split; [reflexivity|].
  destruct (progressive_upscaling (H := torch []) 1%positive (world_with broken_scales))
    as [r w'] eqn:Hrun.
  assert (r = Raise (LibraryError "interpolate")) as ->.
  { change r with (fst (r, w')). rewrite <- Hrun. vm_compute. reflexivity. }
  exists w'. split; [reflexivity|]. split.
  { change w' with (snd (Raise (A := loc) (LibraryError "interpolate"), w')).
    rewrite <- Hrun. vm_compute. reflexivity. }
  destruct (progressive_upscaling_failure (H := torch []) 1%positive broken_scales
              (LibraryError "interpolate") (world_with broken_scales) w')
    as (factor & x & cur & _ & Hx & He & _); [reflexivity|exact Hrun|].
  exists factor, x. split; [exact Hx|exact He].
Defined.

Lemma progressive_upscaling_returns_iff_witness :
  heap (world_with three_scales) !! 1%positive = Some three_scales
  ∧ ((∃ ℓ w', progressive_upscaling (H := torch []) 1%positive (world_with three_scales)
               = (Ok ℓ, w'))
     ↔ (∀ i x, three_scales !! i = Some x → (i < length three_scales - 1)%nat →
          ∃ y, interpolate (Torch := torch []) x
                 (2 ^ Z.of_nat (length three_scales - 1 - i)) = Ok y)).
Proof.
  split; [reflexivity|].
  apply (progressive_upscaling_returns_iff (H := torch []) 1%positive three_scales
           (world_with three_scales)).
  reflexivity.
Defined.

Lemma progressive_upscaling_frame_witness :
  heap (world_with broken_scales) !! 1%positive = Some broken_scales
  ∧ ∃ r w', progressive_upscaling (H := torch []) 1%positive (world_with broken_scales)
            = (r, w')
            ∧ rng w' = 0%nat ∧ files w' = ∅
            ∧ ∃ n, (n ≤ 2)%nat
                   ∧ trace w' = [] ++ upscale_calls_from (H := torch []) broken_scales 1 n.
Proof.
  split; [reflexivity|].
  destruct (progressive_upscaling (H := torch []) 1%positive (world_with broken_scales))
    as [r w'] eqn:Hrun.
  exists r, w'. split; [reflexivity|].
  destruct (progressive_upscaling_frame (H := torch []) 1%positive broken_scales r
              (world_with broken_scales) w')
    as (Hrng & Hfiles & _ & _ & n & Hn & Htrace); [reflexivity|exact Hrun|].
  split; [exact Hrng|]. split; [exact Hfiles|]. exists n. split; [exact Hn|exact Htrace].
Defined.

End UpscalingOutcomeExamples.

(** ** One iteration, step by step *)

Section IterationSteps.
Context `{Torch}.

Lemma sample_latent_ok_inv args (w : world) points w' :
  sample_latent args w = (Ok points, w') →
  ∃ v g, randn (latent_size args) (rng w) = (Ok v, g)
         ∧ 0 ≤ latent_size args
         ∧ points = rescale v (math_sqrt (latent_size args))
         ∧ w' = World (heap w) g (files w) (trace w ++ [EDraw (latent_size args)]).
Proof.
  unfold sample_latent, call_randn, py_sqrt, lift, mbind, M_bind, mret, M_ret.
  destruct (randn _ _) as [[v|e] g]; [|done].
  case_bool_decide as Hn; [done|]. intros [= <- <-].
  exists v, g. split; [done|]. split; [lia|done].
Qed.

Lemma sample_latent_run args (w : world) v g :
  randn (latent_size args) (rng w) = (Ok v, g) →
  0 ≤ latent_size args →
  sample_latent args w
  = (Ok (rescale v (math_sqrt (latent_size args))),
     World (heap w) g (files w) (trace w ++ [EDraw (latent_size args)])).
Proof.
  intros Hdraw Hn.
  unfold sample_latent, call_randn, py_sqrt, lift, mbind, M_bind, mret, M_ret.
  rewrite Hdraw. by rewrite bool_decide_eq_false_2 by lia.
Qed.

Lemma call_gen_run gen points imgs (w : world) :
  forward gen points = Ok imgs →
  call_gen gen points w
  = (Ok (fresh (dom (heap w))),
     World (<[fresh (dom (heap w)) := imgs]> (heap w)) (rng w) (files w)
           (trace w ++ [EInfer points])).
Proof.
  intros Hfwd. unfold call_gen, log, lift, new_list, mbind, M_bind.
  by rewrite Hfwd.
Qed.

Lemma call_gen_ok_inv gen points (w : world) ℓ w' :
  call_gen gen points w = (Ok ℓ, w') →
  ∃ imgs, forward gen points = Ok imgs
          ∧ ℓ = fresh (dom (heap w))
          ∧ w' = World (<[ℓ := imgs]> (heap w)) (rng w) (files w)
                   (trace w ++ [EInfer points]).
Proof.
  unfold call_gen, log, lift, new_list, mbind, M_bind.
  destruct (forward gen points) as [imgs|e]; [|done]. simpl.
  intros [= <- <-]. by exists imgs.
Qed.

Lemma squeeze_all_run ℓ l (w : world) :
  heap w !! ℓ = Some l →
  squeeze_all ℓ w
  = (Ok (fresh (dom (heap w))),
     World (<[fresh (dom (heap w)) := squeeze0 <$> l]> (heap w)) (rng w) (files w)
           (trace w)).
Proof.
  intros Hheap. unfold squeeze_all, read_list, new_list, mbind, M_bind.
  by rewrite Hheap.
Qed.

Lemma render_run args gen (w : world) v g imgs ys grid img :
  randn (latent_size args) (rng w) = (Ok v, g) →
  0 ≤ latent_size args →
  forward gen (rescale v (math_sqrt (latent_size args))) = Ok imgs →
  length ys = length imgs →
  (∀ i x y, imgs !! i = Some x → ys !! i = Some y →
     upscale_one (length imgs) i x = Ok y) →
  make_grid (squeeze0 <$> ys)
    (grid_columns (num_columns args) (Z.of_nat (length imgs))) = Ok grid →
  permute_cpu grid = Ok img →
  render args gen w
  = (Ok img,
     World (heap_after (heap w) ys) g (files w)
       (trace w ++ render_events args (rescale v (math_sqrt (latent_size args)))
                     imgs ys)).
Proof.
  intros Hdraw Hn Hfwd Hlen Hys Hgrid Hperm. unfold render.
  rewrite (bind_run _ _ _ _ _ (sample_latent_run args w v g Hdraw Hn)).
  rewrite (bind_run _ _ _ _ _ (call_gen_run gen _ imgs _ Hfwd)). simpl.
  set (ℓ1 := fresh (dom (heap w))).
  erewrite bind_run;
    [|apply (progressive_upscaling_run ℓ1 imgs ys Hlen Hys); simpl;
      apply lookup_insert_eq].
  simpl. rewrite insert_insert_eq.
  erewrite bind_run; [|apply (squeeze_all_run ℓ1 ys); simpl; apply lookup_insert_eq].
  simpl. set (ℓ2 := fresh (dom (<[ℓ1 := ys]> (heap w)))).
  erewrite bind_eq;
    [|apply (compose_grid_run args ℓ2 (squeeze0 <$> ys)); simpl;
      apply lookup_insert_eq].
  rewrite length_fmap, Hlen, Hgrid. unfold lift. rewrite Hperm. simpl.
  unfold heap_after, render_events. fold ℓ1. fold ℓ2.
  by rewrite <- !app_assoc.
Qed.

Lemma render_ok_inv args gen (w : world) img w' :
  render args gen w = (Ok img, w') →
  ∃ v g imgs ys grid,
    randn (latent_size args) (rng w) = (Ok v, g)
    ∧ 0 ≤ latent_size args
    ∧ forward gen (rescale v (math_sqrt (latent_size args))) = Ok imgs
    ∧ length ys = length imgs
    ∧ (∀ i x y, imgs !! i = Some x → ys !! i = Some y →
         upscale_one (length imgs) i x = Ok y)
    ∧ make_grid (squeeze0 <$> ys)
        (grid_columns (num_columns args) (Z.of_nat (length imgs))) = Ok grid
    ∧ permute_cpu grid = Ok img
    ∧ w' = World (heap_after (heap w) ys) g (files w)
             (trace w ++ render_events args
                           (rescale v (math_sqrt (latent_size args))) imgs ys).
Proof.
  intros Hr. unfold render in Hr.
  apply bind_inv in Hr as [(points & w1 & Hlatent & Hr)|(e & _ & ?)]; [|done].
  apply sample_latent_ok_inv in Hlatent as (v & g & Hdraw & Hn & -> & ->).
  apply bind_inv in Hr as [(ℓ1 & w2 & Hgen & Hr)|(e & _ & ?)]; [|done].
  apply call_gen_ok_inv in Hgen as (imgs & Hfwd & -> & ->). simpl in Hr.
  apply bind_inv in Hr as [(ℓ & w3 & Hup & Hr)|(e & _ & ?)]; [|done].
  apply (progressive_upscaling_ok_inv _ imgs) in Hup
    as (-> & ys & Hlen & Hys & ->); [|simpl; apply lookup_insert_eq].
  simpl in Hr. rewrite insert_insert_eq in Hr.
  erewrite bind_run in Hr;
    [|apply (squeeze_all_run _ ys); simpl; apply lookup_insert_eq].
  simpl in Hr.
  erewrite bind_eq in Hr;
    [|apply (compose_grid_run args _ (squeeze0 <$> ys)); simpl;
      apply lookup_insert_eq].
  rewrite length_fmap, Hlen in Hr.
  destruct (make_grid _ _) as [grid|e] eqn:Hgrid; [|done].
  unfold lift in Hr. destruct (permute_cpu grid) as [img'|e] eqn:Hperm; [|done].
  injection Hr as -> <-.
  exists v, g, imgs, ys, grid. do 7 (split; [done|]).
  unfold heap_after, render_events. by rewrite <- !app_assoc.
Qed.

End IterationSteps.

Section IterationTheorems.
Context `{Torch}.

Lemma sample_iteration_ok_inv args gen save_path img_num (w w' : world) :
  sample_iteration args gen save_path img_num w = (Ok (), w') →
  ∃ v g imgs ys grid img,
    randn (latent_size args) (rng w) = (Ok v, g)
    ∧ 0 ≤ latent_size args
    ∧ forward gen (rescale v (math_sqrt (latent_size args))) = Ok imgs
    ∧ length ys = length imgs
    ∧ (∀ i x y, imgs !! i = Some x → ys !! i = Some y →
         upscale_one (length imgs) i x = Ok y)
    ∧ make_grid (squeeze0 <$> ys)
        (grid_columns (num_columns args) (Z.of_nat (length imgs))) = Ok grid
    ∧ permute_cpu grid = Ok img
    ∧ writable (sample_path save_path img_num) = true
    ∧ w' = World (heap_after (heap w) ys) g
             (<[sample_path save_path img_num := img]> (files w))
             (trace w
              ++ render_events args (rescale v (math_sqrt (latent_size args)))
                   imgs ys
              ++ [EWrite (sample_path save_path img_num) img]).
Proof.
  unfold sample_iteration. intros Hr.
  apply bind_inv in Hr as [(img & w1 & Hrender & Hsave)|(e & _ & ?)]; [|done].
  apply render_ok_inv in Hrender
    as (v & g & imgs & ys & grid & Hdraw & Hn & Hfwd & Hlen & Hys & Hgrid & Hperm & ->).
  unfold imsave in Hsave. destruct (writable _) eqn:Hw; [|done].
  injection Hsave as <-. simpl.
  exists v, g, imgs, ys, grid, img. do 8 (split; [done|]).
  by rewrite <- app_assoc.
Qed.

Lemma sample_iteration_run args gen save_path img_num (w : world)
    v g imgs ys grid img :
  randn (latent_size args) (rng w) = (Ok v, g) →
  0 ≤ latent_size args →
  forward gen (rescale v (math_sqrt (latent_size args))) = Ok imgs →
  length ys = length imgs →
  (∀ i x y, imgs !! i = Some x → ys !! i = Some y →
     upscale_one (length imgs) i x = Ok y) →
  make_grid (squeeze0 <$> ys)
    (grid_columns (num_columns args) (Z.of_nat (length imgs))) = Ok grid →
  permute_cpu grid = Ok img →
  writable (sample_path save_path img_num) = true →
  sample_iteration args gen save_path img_num w
  = (Ok (),
     World (heap_after (heap w) ys) g
       (<[sample_path save_path img_num := img]> (files w))
       (trace w
        ++ render_events args (rescale v (math_sqrt (latent_size args))) imgs ys
        ++ [EWrite (sample_path save_path img_num) img])).
Proof.
  intros Hdraw Hn Hfwd Hlen Hys Hgrid Hperm Hw. unfold sample_iteration.
  rewrite (bind_run _ _ _ _ _
             (render_run args gen w v g imgs ys grid img
                Hdraw Hn Hfwd Hlen Hys Hgrid Hperm)).
  unfold imsave. rewrite Hw. simpl. by rewrite <- app_assoc.
Qed.

(** X4: an iteration completes exactly when the draw, the generator, every
    upscaling, [make_grid], the permutation and the write all go through; it
    then has drawn once, run the generator once on the rescaled point,
    upscaled every image but the last, composed the grid from the squeezed
    upscaled images with the column count of the number of images, and
    written the permuted grid to the iteration's path, in this order. *)
Theorem iteration_completes_iff (args : Args) (gen : generator) (save_path : string)
    (img_num : Z) (w w' : world) :
  sample_iteration args gen save_path img_num w = (Ok (), w')
  ↔ ∃ v g imgs ys grid img,
      randn (latent_size args) (rng w) = (Ok v, g)
      ∧ 0 ≤ latent_size args
      ∧ forward gen (rescale v (math_sqrt (latent_size args))) = Ok imgs
      ∧ length ys = length imgs
      ∧ (∀ i x y, imgs !! i = Some x → ys !! i = Some y →
           upscale_one (length imgs) i x = Ok y)
      ∧ make_grid (squeeze0 <$> ys)
          (grid_columns (num_columns args) (Z.of_nat (length imgs))) = Ok grid
      ∧ permute_cpu grid = Ok img
      ∧ writable (sample_path save_path img_num) = true
      ∧ w' = World (heap_after (heap w) ys) g
               (<[sample_path save_path img_num := img]> (files w))
               (trace w
                ++ render_events args (rescale v (math_sqrt (latent_size args)))
                     imgs ys
                ++ [EWrite (sample_path save_path img_num) img]).
Proof.
  split.
  - apply sample_iteration_ok_inv.
  - intros (v & g & imgs & ys & grid & img
            & Hdraw & Hn & Hfwd & Hlen & Hys & Hgrid & Hperm & Hw & ->).
    by apply (sample_iteration_run _ _ _ _ _ v g imgs ys grid img).
Qed.

End IterationTheorems.

(** ** Counting what a run does *)

Section Counts.
Context `{Torch}.

Lemma count_events_app kind (tr1 tr2 : list event) :
  count_events kind (tr1 ++ tr2) = (count_events kind tr1 + count_events kind tr2)%nat.
Proof. unfold count_events. by rewrite List.filter_app, length_app. Qed.

Lemma count_upscale_calls kind (l : list tensor) (a n : nat) :
  (∀ x s, kind (EInterpolate x s) = false) →
  count_events kind (upscale_calls_from l a n) = 0%nat.
Proof.
  intros Hkind. unfold upscale_calls_from. revert a.
  induction n as [|n IH]; intros a; [done|]. simpl.
  destruct (l !! _) as [x|]; simpl; [|apply IH].
  unfold count_events. simpl. rewrite Hkind. apply IH.
Qed.

Lemma length_upscale_calls (l : list tensor) :
  length (upscale_calls l) = (length l - 1)%nat.
Proof.
  unfold upscale_calls.
  assert (∀ a n, (a + n ≤ length l)%nat → (1 ≤ a)%nat →
            length (omap (λ factor : nat,
                      (λ x, EInterpolate x (2 ^ Z.of_nat factor))
                        <$> l !! (length l - 1 - factor)%nat) (seq a n)) = n) as Hlen.
  { intros a n. revert a. induction n as [|n IH]; intros a Han Ha; [done|]. simpl.
    destruct (lookup_lt_is_Some_2 l (length l - 1 - a)) as [x ->]; [lia|].
    simpl. f_equal. apply IH; lia. }
  destruct l as [|x l]; [done|]. apply Hlen; simpl; lia.
Qed.

Lemma load_generator_exact args (w : world) :
  load_generator args w
  = match Generator (depth args) (latent_size args) with
    | Raise e => (Raise e, logged w (construct_events args))
    | Ok g =>
        (load_state_dict g (generator_file args), logged w (load_events args))
    end.
Proof.
  unfold load_generator, print, call_Generator, call_load_state_dict, log, lift,
    mbind, M_bind, logged, load_events, construct_events.
  simpl. destruct (Generator _ _) as [g|e]; simpl; rewrite <- ?app_assoc; [|done].
  by destruct (load_state_dict _ _).
Qed.

Lemma load_generator_count args (w : world) r ws kind :
  (∀ line, kind (EPrint line) = false) →
  (∀ d n, kind (EConstruct d n) = false) →
  (∀ f, kind (ELoad f) = false) →
  load_generator args w = (r, ws) →
  count_events kind (trace ws) = count_events kind (trace w).
Proof.
  intros Hp Hc Hl. rewrite load_generator_exact.
  destruct (Generator _ _) as [g|e]; intros [= <- <-]; simpl;
    rewrite count_events_app; unfold count_events; simpl;
    rewrite ?Hp, ?Hc, ?Hl; simpl; lia.
Qed.

Lemma iteration_count args gen save_path img_num (w w' : world) kind :
  kind = is_draw ∨ kind = is_infer ∨ kind = is_make_grid →
  sample_iteration args gen save_path img_num w = (Ok (), w') →
  count_events kind (trace w') = S (count_events kind (trace w)).
Proof.
  intros Hkind Hrun.
  apply sample_iteration_ok_inv in Hrun
    as (v & g & imgs & ys & grid & img & _ & _ & _ & _ & _ & _ & _ & _ & ->).
  unfold render_events. cbn [trace].
  rewrite !count_events_app, (upscale_calls_from_all imgs), count_upscale_calls
    by (intros; by destruct Hkind as [->|[->| ->]]).
  destruct Hkind as [->|[->| ->]]; unfold count_events; simpl; lia.
Qed.

Lemma iterations_count args gen save_path (nums : list Z) (w w' : world) kind :
  kind = is_draw ∨ kind = is_infer ∨ kind = is_make_grid →
  for_each nums (sample_iteration args gen save_path) w = (Ok (), w') →
  count_events kind (trace w') = (count_events kind (trace w) + length nums)%nat.
Proof.
  intros Hkind. revert w. induction nums as [|i nums IH]; intros w Hrun; simpl in *.
  - injection Hrun as <-. lia.
  - apply bind_inv in Hrun as [([] & w1 & Hi & Hrest)|(e & _ & ?)]; [|done].
    rewrite (IH _ Hrest), (iteration_count _ _ _ _ _ _ _ Hkind Hi). lia.
Qed.

(** X5: a run of [main] that completes has drawn exactly [num_samples] latent
    vectors, run the generator exactly [num_samples] times, composed that
    many grids and written that many files (none of each when [num_samples]
    is zero or negative). *)
Theorem run_counts (args : Args) (w w' : world) :
  main args w = (Ok (), w') →
  count_events is_draw (trace w')
  = (count_events is_draw (trace w) + Z.to_nat (num_samples args))%nat
  ∧ count_events is_infer (trace w')
    = (count_events is_infer (trace w) + Z.to_nat (num_samples args))%nat
  ∧ count_events is_make_grid (trace w')
    = (count_events is_make_grid (trace w) + Z.to_nat (num_samples args))%nat
  ∧ length (written (trace w'))
    = (length (written (trace w)) + Z.to_nat (num_samples args))%nat.
Proof.
  intros Hmain.
  apply main_inv in Hmain
    as [(e & ? & _)|(g & ws & r1 & w1 & Hload & Hloop & Hr)]; [done|].
  destruct r1 as [[]|e]; [|by destruct Hr]. destruct Hr as [_ ->].
  assert (length (py_range 1 (num_samples args + 1)) = Z.to_nat (num_samples args))
    as Hlen by (rewrite py_range_length; lia).
  assert (∀ kind, kind = is_draw ∨ kind = is_infer ∨ kind = is_make_grid →
            count_events kind
              (trace w1 ++ [EPrint (summary args (out_dir args))])
            = (count_events kind (trace w) + Z.to_nat (num_samples args))%nat)
    as Hcount.
  { intros kind Hkind.
    rewrite count_events_app, (iterations_count _ _ _ _ _ _ _ Hkind Hloop), Hlen.
    simpl. rewrite count_events_app.
    rewrite (load_generator_count args w _ ws kind) by
      (done || (intros; by destruct Hkind as [->|[->| ->]])).
    destruct Hkind as [->|[->| ->]]; unfold count_events; simpl; lia. }
  simpl. split; [apply Hcount; auto|]. split; [apply Hcount; auto|].
  split; [apply Hcount; auto|].
  apply iterations_ok in Hloop as [Ht _].
  apply quiet_load_generator in Hload as [_ Ht0]. simpl in Ht.
  rewrite !written_app in *. simpl in *. rewrite !app_nil_r in *.
  rewrite Ht, Ht0, length_app, length_fmap, Hlen. done.
Qed.

End Counts.

Section CountsExamples.
Import ShapeModel.

Lemma run_counts_witness :
  ∃ w', main (H := torch []) sample_args (empty_world []) = (Ok (), w')
        ∧ count_events is_draw (trace w') = 2%nat
        ∧ count_events is_infer (trace w') = 2%nat
        ∧ count_events is_make_grid (trace w') = 2%nat
        ∧ length (written (trace w')) = 2%nat.
Proof.
  destruct (main (H := torch []) sample_args (empty_world [])) as [r w'] eqn:Hmain.
  assert (r = Ok ()) as ->.
  { change r with (fst (r, w')). rewrite <- Hmain. vm_compute. reflexivity. }
  exists w'. split; [reflexivity|].
  exact (run_counts (H := torch []) sample_args (empty_world []) w' Hmain).
Defined.

End CountsExamples.

(** ** The files of a run, whatever its outcome *)

Section FilesOutcome.
Context `{Torch}.

Lemma take_py_range (k : nat) a b :
  (k ≤ Z.to_nat (b - a))%nat → take k (py_range a b) = py_range a (a + Z.of_nat k).
Proof.
  intros Hk. unfold py_range. rewrite <- fmap_take, take_seq.
  do 2 f_equal. lia.
Qed.

Lemma iterations_outcome args gen save_path (nums : list Z) (w : world) r w' :
  for_each nums (sample_iteration args gen save_path) w = (r, w') →
  ∃ k : nat,
    (k ≤ length nums)%nat
    ∧ written (trace w') = written (trace w) ++ (sample_path save_path <$> take k nums)
    ∧ dom (files w')
      = dom (files w) ∪ list_to_set (sample_path save_path <$> take k nums)
    ∧ (∀ p, p ∉ (sample_path save_path <$> take k nums) →
         files w' !! p = files w !! p)
    ∧ (r = Ok () → k = length nums).
Proof.
  revert w. induction nums as [|i nums IH]; intros w Hrun; simpl in *.
  - injection Hrun as <- <-. exists 0%nat. simpl. rewrite app_nil_r.
    split; [done|]. split; [done|]. split; [by rewrite (right_id_L ∅ (∪))|done].
  - apply bind_inv in Hrun as [([] & w1 & Hi & Hrest)|(e & Hi & ->)].
    + apply sample_iteration_outcome in Hi
        as [(_ & img & Hf & Ht)|(e & ? & _)]; [|done].
      destruct (IH _ Hrest) as (k & Hk & Ht' & Hd' & Hf' & Hr).
      exists (S k). simpl. split; [lia|]. split.
      { by rewrite Ht', Ht, <- app_assoc. }
      split.
      { rewrite Hd', Hf, dom_insert_L.
        by rewrite (assoc_L (∪)), (comm_L (∪) (dom (files w))). }
      split.
      { intros p Hp. apply not_elem_of_cons in Hp as [Hne Hp].
        rewrite (Hf' p Hp), Hf. by apply lookup_insert_ne. }
      intros Hok. by rewrite (Hr Hok).
    + apply sample_iteration_outcome in Hi
        as [(? & _)|(e' & _ & Hf & Ht)]; [done|].
      exists 0%nat. simpl. rewrite app_nil_r. split; [lia|]. split; [done|].
      split; [by rewrite Hf, (right_id_L ∅ (∪))|]. split; [by rewrite Hf|done].
Qed.

(** X6: whatever the outcome of [main], the files it wrote are those of the
    iterations [1] to [k], in order, for some [k] between 0 and
    [num_samples]; these are the only paths whose content may have changed,
    every other file is as it was; a run that completes has [k] equal to
    [num_samples] (0 when that is negative). *)
Theorem main_files_outcome (args : Args) (r : result unit) (w w' : world) :
  main args w = (r, w') →
  ∃ k : Z,
    0 ≤ k ≤ Z.max 0 (num_samples args)
    ∧ written (trace w')
      = written (trace w) ++ (sample_path (out_dir args) <$> py_range 1 (k + 1))
    ∧ dom (files w')
      = dom (files w)
        ∪ list_to_set (sample_path (out_dir args) <$> py_range 1 (k + 1))
    ∧ (∀ p, p ∉ (sample_path (out_dir args) <$> py_range 1 (k + 1)) →
         files w' !! p = files w !! p)
    ∧ (r = Ok () → k = Z.max 0 (num_samples args)).
Proof.
  intros Hmain.
  apply main_inv in Hmain
    as [(e & -> & Hload)|(g & ws & r1 & w1 & Hload & Hloop & Hr)].
  - apply quiet_load_generator in Hload as [Hf Ht].
    exists 0. rewrite py_range_nil by lia. simpl. rewrite app_nil_r.
    split; [lia|]. split; [done|].
    split; [by rewrite Hf, (right_id_L ∅ (∪))|]. split; [by rewrite Hf|done].
  - apply quiet_load_generator in Hload as [Hf Ht].
    apply iterations_outcome in Hloop as (k & Hk & Ht1 & Hd1 & Hf1 & Hok).
    rewrite py_range_length in Hk.
    rewrite take_py_range in Ht1, Hd1, Hf1 by lia. simpl in Ht1, Hd1, Hf1.
    rewrite written_app in Ht1. simpl in Ht1. rewrite app_nil_r, Ht in Ht1.
    rewrite Hf in Hd1. setoid_rewrite Hf in Hf1.
    exists (Z.of_nat k). split; [lia|].
    replace (Z.of_nat k + 1) with (1 + Z.of_nat k) by lia.
    destruct r1 as [[]|e].
    + destruct Hr as [-> ->]. simpl. rewrite written_app. simpl.
      rewrite app_nil_r. do 3 (split; [done|]).
      intros _. rewrite (Hok eq_refl), py_range_length. lia.
    + destruct Hr as [-> ->]. by do 3 (split; [done|]).
Qed.

End FilesOutcome.

Section FilesOutcomeExamples.
Import ShapeModel.

Lemma main_files_outcome_witness :
  ∃ w' k,
    main (H := torch ["out/2.png"%string]) sample_args
      (empty_world ["out/2.png"%string])
    = (Raise (IOError "out/2.png"), w')
    ∧ 0 ≤ k ≤ Z.max 0 (num_samples sample_args)
    ∧ written (trace w')
      = [] ++ (sample_path (out_dir sample_args) <$> py_range 1 (k + 1))
    ∧ (∀ p, p ∉ (sample_path (out_dir sample_args) <$> py_range 1 (k + 1)) →
         files w' !! p = (∅ : gmap string (list Z)) !! p).
Proof.
  destruct (main (H := torch ["out/2.png"%string]) sample_args
              (empty_world ["out/2.png"%string])) as [r w'] eqn:Hmain.
  assert (r = Raise (IOError "out/2.png")) as ->.
  { change r with (fst (r, w')). rewrite <- Hmain. vm_compute. reflexivity. }
  destruct (main_files_outcome (H := torch ["out/2.png"%string]) sample_args _
              (empty_world ["out/2.png"%string]) w' Hmain)
    as (k & Hk & Ht & _ & Hf & _).
  exists w', k. split; [reflexivity|]. split; [exact Hk|]. split; [exact Ht|exact Hf].
Defined.

End FilesOutcomeExamples.

(** ** The list objects of a run *)

Section KeepsLists.
Context `{Torch}.

Lemma keeps_ret {A} (a : A) : keeps_lists (mret a).
Proof. by intros w r w' [= <- <-]. Qed.

Lemma keeps_lift {A} (r : result A) : keeps_lists (lift r).
Proof. by intros w r' w' [= <- <-]. Qed.

Lemma keeps_log (ev : event) : keeps_lists (log ev).
Proof. by intros w r w' [= <- <-]. Qed.

Lemma keeps_bind {A B} (m : M A) (f : A → M B) :
  keeps_lists m → (∀ a, keeps_lists (f a)) → keeps_lists (m ≫= f).
Proof.
  intros Hm Hf w r w' Hr.
  apply bind_inv in Hr as [(a & w1 & Hma & Hfa)|(e & Hme & ->)].
  - etrans; [by eapply Hm|by eapply Hf].
  - by eapply Hm.
Qed.

Lemma keeps_for_each {A} (xs : list A) (body : A → M unit) :
  (∀ x, keeps_lists (body x)) → keeps_lists (for_each xs body).
Proof.
  intros Hbody. induction xs as [|x xs IH]; simpl; [apply keeps_ret|].
  apply keeps_bind; [apply Hbody|done].
Qed.

Lemma keeps_new_list l : keeps_lists (new_list l).
Proof.
  intros w r w' [= <- <-]. simpl.
  apply insert_subseteq, not_elem_of_dom, is_fresh.
Qed.

Lemma keeps_read_list ℓ : keeps_lists (read_list ℓ).
Proof. intros w r w'. unfold read_list. by destruct (heap w !! ℓ); intros [= <- <-]. Qed.

Lemma keeps_call_randn n : keeps_lists (call_randn n).
Proof. intros w r w'. unfold call_randn. by destruct (randn _ _); intros [= <- <-]. Qed.

Lemma keeps_imsave path img : keeps_lists (imsave path img).
Proof. intros w r w'. unfold imsave. by destruct (writable _); intros [= <- <-]. Qed.

Lemma keeps_sample_latent args : keeps_lists (sample_latent args).
Proof.
  unfold sample_latent.
  repeat (first [ apply keeps_bind; [|intros ?] | apply keeps_call_randn
                | apply keeps_lift | apply keeps_ret ]).
Qed.

Lemma keeps_call_gen gen points : keeps_lists (call_gen gen points).
Proof.
  unfold call_gen.
  repeat (first [ apply keeps_bind; [|intros ?] | apply keeps_log
                | apply keeps_lift | apply keeps_new_list ]).
Qed.

(** What follows the upscaling in [render]. *)
Lemma keeps_tile args ℓ :
  keeps_lists (ss_images ← squeeze_all ℓ;
               ss_image ← compose_grid args ss_images;
               lift (permute_cpu ss_image)).
Proof.
  unfold squeeze_all, compose_grid, call_make_grid, len.
  repeat (first [ apply keeps_bind; [|intros ?] | apply keeps_log
                | apply keeps_lift | apply keeps_new_list | apply keeps_read_list
                | apply keeps_ret | destruct (num_columns args) ]).
Qed.

(** The list the generator returns is new, so the upscaling in place
    touches no list that existed before. *)
Lemma keeps_render args gen : keeps_lists (render args gen).
Proof.
  intros w r w' Hr. unfold render in Hr.
  apply bind_inv in Hr as [(points & w1 & Hlatent & Hr)|(e & Hlatent & ->)];
    [|by apply keeps_sample_latent in Hlatent].
  apply keeps_sample_latent in Hlatent. etrans; [exact Hlatent|].
  apply bind_inv in Hr as [(ℓ1 & w2 & Hgen & Hr)|(e & Hgen & ->)];
    [|by apply keeps_call_gen in Hgen].
  apply call_gen_ok_inv in Hgen as (imgs & Hfwd & -> & ->).
  assert (∀ cur, heap w1 ⊆ <[fresh (dom (heap w1)) := cur]>
                             (<[fresh (dom (heap w1)) := imgs]> (heap w1)))
    as Hfresh.
  { intros cur. rewrite insert_insert_eq.
    apply insert_subseteq, not_elem_of_dom, is_fresh. }
  apply bind_inv in Hr as [(ℓ & w3 & Hup & Hr)|(e & Hup & ->)].
  - apply (progressive_upscaling_exact _ imgs) in Hup
      as (m & cur & _ & -> & _); [|simpl; apply lookup_insert_eq].
    etrans; [apply (Hfresh cur)|]. by apply keeps_tile in Hr.
  - apply (progressive_upscaling_exact _ imgs) in Hup
      as (m & cur & _ & -> & _); [|simpl; apply lookup_insert_eq].
    apply (Hfresh cur).
Qed.

Lemma keeps_sample_iteration args gen save_path img_num :
  keeps_lists (sample_iteration args gen save_path img_num).
Proof.
  unfold sample_iteration. apply keeps_bind; [apply keeps_render|].
  intros img. apply keeps_imsave.
Qed.

Lemma keeps_load_generator args : keeps_lists (load_generator args).
Proof.
  unfold load_generator, print, call_Generator, call_load_state_dict.
  repeat (first [ apply keeps_bind; [|intros ?] | apply keeps_log
                | apply keeps_lift ]).
Qed.

(** X7: a run of [main], whatever its outcome, changes no list object that
    existed when it started: the upscaling in place only ever reaches the
    list that the generator returned in the same iteration. *)
Theorem main_keeps_lists (args : Args) (r : result unit) (w w' : world)
    (ℓ : loc) (l : list tensor) :
  main args w = (r, w') →
  heap w !! ℓ = Some l →
  heap w' !! ℓ = Some l.
Proof.
  intros Hmain Hl.
  assert (keeps_lists (main args)) as Hkeeps.
  { unfold main, print, sample_loop. cbv zeta.
    repeat (first [ apply keeps_load_generator | apply keeps_log
                  | apply keeps_for_each; intros ?
                  | apply keeps_sample_iteration
                  | apply keeps_bind; [|intros ?] ]). }
  by apply (lookup_weaken _ _ _ _ Hl (Hkeeps _ _ _ Hmain)).
Qed.

End KeepsLists.

Section KeepsListsExamples.
Import ShapeModel.

Lemma main_keeps_lists_witness :
  ∃ w', main (H := torch []) sample_args (world_with three_scales) = (Ok (), w')
        ∧ heap (world_with three_scales) !! 1%positive = Some three_scales
        ∧ heap w' !! 1%positive = Some three_scales.
Proof.
  destruct (main (H := torch []) sample_args (world_with three_scales))
    as [r w'] eqn:Hmain.
  assert (r = Ok ()) as ->.
  { change r with (fst (r, w')). rewrite <- Hmain. vm_compute. reflexivity. }
  exists w'. split; [reflexivity|].
  assert (heap (world_with three_scales) !! 1%positive = Some three_scales)
    as Hl by (vm_compute; reflexivity).
  split; [exact Hl|].
  exact (main_keeps_lists (H := torch []) sample_args _ (world_with three_scales) w'
           1%positive three_scales Hmain Hl).
Defined.

End KeepsListsExamples.

(** ** Setting the generator up *)

Section Setup.
Context `{Torch}.

(** X8: when the generator cannot be constructed, or its weights cannot be
    loaded, [main] raises that exception at once: it has printed the
    messages up to the failing step and logged the attempt, and nothing
    else; the message of the sample loop is not printed, nothing is drawn
    and no file is written. *)
Theorem generator_unavailable (args : Args) (e : exn) (w : world) :
  (Generator (depth args) (latent_size args) = Raise e
   ∨ ∃ g, Generator (depth args) (latent_size args) = Ok g
          ∧ load_state_dict g (generator_file args) = Raise e) →
  main args w = (Raise e, logged w (setup_events args))
  ∧ count_events is_draw (trace (logged w (setup_events args)))
    = count_events is_draw (trace w)
  ∧ written (trace (logged w (setup_events args))) = written (trace w).
Proof.
  intros Hfail.
  assert (load_generator args w = (Raise e, logged w (setup_events args))) as Hload.
  { rewrite load_generator_exact. unfold setup_events.
    destruct Hfail as [->|(g & -> & ->)]; done. }
  split; [by apply bind_raise|]. split.
  - by apply (load_generator_count args w (Raise e)).
  - by apply quiet_load_generator in Hload as [_ ?].
Qed.

End Setup.

Section SetupExamples.
Import ShapeModel.

Lemma generator_unavailable_witness :
  main (H := torch []) unloadable_args (empty_world [])
  = (Raise (IOError ""),
     @World (torch []) ∅ 0%nat ∅
       [ EPrint "Creating generator object ...";
         EConstruct 3 2;
         EPrint "Loading the generator weights from: ";
         ELoad "" ]).
Proof.
  destruct (generator_unavailable (H := torch []) unloadable_args (IOError "")
              (empty_world [])) as [Hmain _].
  - right. exists 3. split; reflexivity.
  - exact Hmain.
Defined.

End SetupExamples.

(** ** A negative latent size *)

Section NegativeLatentSize.
Context `{Torch}.

(** X10: when [th.randn] rejects every negative size, as torch does, lines
    102-103 fail only where the draw fails: [math.sqrt] is never reached with
    a negative number, so a negative [--latent_size] surfaces as the error of
    [th.randn], with the draw logged and nothing else changed. *)
Theorem latent_failure_is_draw_failure (args : Args) (e : exn) (w w' : world) :
  (∀ n g, n < 0 → ∃ e' g', randn n g = (Raise e', g')) →
  sample_latent args w = (Raise e, w') →
  ∃ g', randn (latent_size args) (rng w) = (Raise e, g')
        ∧ w' = World (heap w) g' (files w) (trace w ++ [EDraw (latent_size args)]).
Proof.
  intros Hrejects.
  unfold sample_latent, call_randn, py_sqrt, lift, mbind, M_bind, mret, M_ret.
  destruct (randn _ _) as [[v|e'] g'] eqn:Hdraw.
  - case_bool_decide as Hn; [|done].
    destruct (Hrejects _ (rng w) Hn) as (e' & g'' & Hraise). congruence.
  - intros [= <- <-]. by exists g'.
Qed.

End NegativeLatentSize.

Section NegativeLatentSizeExamples.
Import ShapeModel.

Lemma shape_model_rejects_negative (n : Z) (g : nat) :
  n < 0 → ∃ e' g', randn (Torch := torch []) n g = (Raise e', g').
Proof.
  intros Hn. simpl. unfold randn_impl.
  rewrite (proj2 (Z.ltb_lt n 0) Hn). eauto.
Qed.

Lemma latent_failure_is_draw_failure_witness :
  ∃ g', sample_latent (H := torch []) negative_args (empty_world [])
        = (Raise (LibraryError "randn"), @World (torch []) ∅ g' ∅ ([] ++ [EDraw (-2)]))
        ∧ randn (Torch := torch []) (-2) 0%nat = (Raise (LibraryError "randn"), g').
Proof.
  destruct (sample_latent (H := torch []) negative_args (empty_world []))
    as [r w'] eqn:Hrun.
  assert (r = Raise (LibraryError "randn")) as ->.
  { change r with (fst (r, w')). rewrite <- Hrun.
    unfold sample_latent, call_randn, mbind, M_bind. reflexivity. }
  destruct (latent_failure_is_draw_failure (H := torch []) negative_args
              (LibraryError "randn") (empty_world []) w'
              shape_model_rejects_negative Hrun) as (g' & Hdraw & ->).
  exists g'. split; [reflexivity|exact Hdraw].
Defined.

End NegativeLatentSizeExamples.

(** ** The names of the files, again *)

Section Paths.

Lemma list_ascii_of_string_app (a b : string) :
  list_ascii_of_string (a +:+ b) = list_ascii_of_string a ++ list_ascii_of_string b.
Proof.
  induction a as [|c a IH]; [done|].
  change (c :: list_ascii_of_string (a +:+ b)
          = c :: (list_ascii_of_string a ++ list_ascii_of_string b)).
  by rewrite IH.
Qed.

Lemma ends_with_slash_app (d : string) : ends_with_slash (d +:+ "/") = true.
Proof.
  unfold ends_with_slash. rewrite list_ascii_of_string_app. simpl.
  by rewrite last_snoc.
Qed.

Lemma prefix_app (d x : string) : String.prefix d (d +:+ x) = true.
Proof.
  induction d as [|c d IH]; [by destruct x|].
  change (String.prefix (String c d) (String c (d +:+ x)) = true).
  simpl. by destruct (ascii_dec c c).
Qed.

(** X11: the file of iteration [i >= 1] has a name that starts with the
    output directory as it was given; a directory given with and without a
    trailing slash names the same files; with an empty directory the file is
    [i.png], relative to the working directory. *)
Theorem sample_path_out_dir (d : string) (i : Z) :
  1 ≤ i →
  String.prefix d (sample_path d i) = true
  ∧ (d ≠ ""%string → ends_with_slash d = false →
       sample_path (d +:+ "/") i = sample_path d i)
  ∧ sample_path "" i = py_str i +:+ ".png".
Proof.
  intros Hi. pose proof (png_name_relative i Hi) as Hrel.
  unfold sample_path, os_path_join. rewrite Hrel. split; [|split].
  - destruct (bool_decide (d = ""%string) || ends_with_slash d);
      apply prefix_app.
  - intros Hd Hslash. rewrite ends_with_slash_app, orb_true_r, Hslash.
    rewrite bool_decide_eq_false_2 by done. simpl.
    by rewrite string_app_assoc.
  - done.
Qed.

Lemma sample_path_out_dir_witness :
  1 ≤ 3
  ∧ String.prefix "out" (sample_path "out" 3) = true
  ∧ sample_path ("out" +:+ "/") 3 = sample_path "out" 3.
Proof.
  split; [lia|].
  destruct (sample_path_out_dir "out" 3) as (Hprefix & Hslash & _); [lia|].
  split; [exact Hprefix|]. apply Hslash; [discriminate|reflexivity].
Defined.

End Paths.

(** ** The column count, in integers *)

Section Grid.
Context `{Torch}.

(** X12: when [--num_columns] is not given, the column count [k] handed to
    [make_grid] is the least one whose square holds the images: [n <= k * k],
    and for [n >= 1] also [(k - 1)^2 < n], so that the images fill at most
    [k] rows of [k]; for an empty list of images the count is 0. *)
Theorem auto_grid_fits (args : Args) (ss_images : loc) (l : list tensor) (w : world) :
  num_columns args = None →
  heap w !! ss_images = Some l →
  ∃ k,
    compose_grid args ss_images w = (make_grid l k, logged w [EMakeGrid l k])
    ∧ 0 ≤ k
    ∧ Z.of_nat (length l) ≤ k * k
    ∧ (l = [] → k = 0)
    ∧ (l ≠ [] → (k - 1) * (k - 1) < Z.of_nat (length l)
                ∧ (Z.of_nat (length l) + k - 1) / k ≤ k).
Proof.
  intros Hauto Hheap. exists (ceil_sqrt (Z.of_nat (length l))).
  split.
  { rewrite (compose_grid_run args ss_images l w Hheap), Hauto. done. }
  unfold ceil_sqrt. destruct l as [|x l].
  - simpl. split; [done|]. split; [done|]. split; [done|]. done.
  - set (n := Z.of_nat (length (x :: l))).
    assert (0 < n) as Hn by (unfold n; simpl; lia).
    destruct (Z.sqrt_up_spec n Hn) as [Hlo Hhi].
    assert (0 < Z.sqrt_up n) as Hk by (by apply Z.sqrt_up_pos).
    split; [lia|]. split; [lia|]. split; [done|]. intros _.
    split; [unfold Z.pred in Hlo; lia|].
    apply Z.lt_succ_r, Z.div_lt_upper_bound; lia.
Qed.

End Grid.

Section GridExamples.
Import ShapeModel.

Lemma auto_grid_fits_witness :
  ∃ k,
    compose_grid (H := torch []) sample_args 1%positive (world_with three_synchronized)
    = (make_grid (Torch := torch []) three_synchronized k,
       logged (world_with three_synchronized)
         [EMakeGrid (H := torch []) three_synchronized k])
    ∧ 3 ≤ k * k
    ∧ (k - 1) * (k - 1) < 3.
Proof.
  destruct (auto_grid_fits (H := torch []) sample_args 1%positive three_synchronized
              (world_with three_synchronized))
    as (k & Hrun & _ & Hfits & _ & Hleast); [reflexivity|reflexivity|].
  exists k. split; [exact Hrun|]. split; [exact Hfits|].
  apply Hleast. discriminate.
Defined.

End GridExamples.

(** ** More of the command line *)

Ltac prefix_cases p Hpre Hlen :=
  repeat (destruct p as [|? p];
          [ try (cbn [String.length] in Hlen; lia)
          | simpl in Hpre;
            first [ discriminate Hpre
                  | destruct (ascii_dec _ _) as [->|]; [|discriminate Hpre] ] ]).

Section CommandLineOutcomes.
Variable py_int : string → option Z.

(** The first string is classified on its own, and consumed first. *)
Lemma parse_args_head (tok : string) (rest : list string) :
  tok ≠ "--"%string →
  classify tok ≠ Ambiguous →
  parse_args py_int (tok :: rest)
  = match List.find is_ambiguous (classify_all rest) with
    | Some (t, _) => UsageError (AmbiguousOption t)
    | None => consume py_int ((tok, classify tok) :: classify_all rest) defaults false
    end.
Proof.
  intros Htok Hclass. unfold parse_args. cbn [classify_all].
  rewrite (proj2 (String.eqb_neq tok "--") Htok). cbn [List.find snd].
  by destruct (classify tok).
Qed.

(** How the first string was spelled does not matter once it is classified. *)
Lemma consume_head (tok1 tok2 : string) c toks ns extras :
  consume py_int ((tok1, c) :: toks) ns extras
  = consume py_int ((tok2, c) :: toks) ns extras.
Proof. by destruct c as [| |name [[]|] [e|]|]. Qed.

Lemma find_ambiguous_elem (argv : list string) tok c :
  List.find is_ambiguous (classify_all argv) = Some (tok, c) →
  tok ∈ argv ∧ classify tok = Ambiguous.
Proof.
  intros Hfind. apply find_some in Hfind as [Hin Hamb].
  apply list_elem_of_In in Hin. unfold is_ambiguous in Hamb. simpl in Hamb.
  apply classify_all_elem in Hin as [->|[->|[Hin ->]]]; [done|done|].
  split; [done|]. by destruct (classify tok).
Qed.

Lemma positional_not_separator (v : string) :
  classify v = Positional → v ≠ "--"%string.
Proof. intros Hv ->. vm_compute in Hv. discriminate. Qed.

(** X13: a command line that only gives the file of weights, as
    [--generator_file FILE] or [--generator_file=FILE], is accepted, and every
    other setting has its default: latent size 256, depth 6, 300 samples, no
    column count, output directory [interp_animation_frames/]. *)
Theorem only_generator_file (f : string) :
  classify f = Positional →
  parse_args py_int ["--generator_file"; f]%string
  = Parsed {| generator_file := f; latent_size := 256; depth := 6;
              num_samples := 300; num_columns := None;
              out_dir := "interp_animation_frames/" |}
  ∧ parse_args py_int ["--generator_file=" +:+ f]%string
    = Parsed {| generator_file := f; latent_size := 256; depth := 6;
                num_samples := 300; num_columns := None;
                out_dir := "interp_animation_frames/" |}.
Proof.
  intros Hf. split.
  - rewrite parse_args_head by (vm_compute; discriminate).
    cbn [classify_all].
    rewrite (proj2 (String.eqb_neq f "--") (positional_not_separator f Hf)), Hf.
    reflexivity.
  - rewrite parse_args_head by (vm_compute; discriminate). reflexivity.
Qed.

(** X14: a value that [int] rejects, given with [=] to one of the four
    integer options at the start of the command line, ends the script inside
    argument parsing with exit status 2, before the generator is built: the
    error is the invalid value, unless a later string is an ambiguous
    abbreviation, which is reported instead.  The value [--] is left out:
    argparse drops it from the values of the option before it converts
    them, and reports no error. *)
Theorem invalid_int_value `{Torch} (name v : string) (d : dest) (rest : list string)
    (w : world) :
  (name, d) ∈ option_strings →
  d ∈ [DLatentSize; DDepth; DNumSamples; DNumColumns] →
  v ≠ "--"%string →
  py_int v = None →
  ∃ err,
    script py_int ((name +:+ "=" +:+ v) :: rest) w
    = (Raise (SystemExit 2), logged w [EArgparseError err])
    ∧ (err = InvalidIntValue d v
       ∨ ∃ tok, tok ∈ rest ∧ classify tok = Ambiguous ∧ err = AmbiguousOption tok).
Proof.
  intros Hname Hd _ Hv. unfold script, parse_arguments.
  assert ((name +:+ "=" +:+ v) ≠ "--"%string
          ∧ classify (name +:+ "=" +:+ v) = Optional name (Some d) (Some v))
    as [Hsep Hclass].
  { unfold option_strings in Hname.
    repeat (apply elem_of_cons in Hname as [[= -> ->]|Hname]);
      [..|by apply elem_of_nil in Hname];
      try (by repeat (apply elem_of_cons in Hd as [?|Hd]; [done|]);
              apply elem_of_nil in Hd);
      (split; [discriminate|reflexivity]). }
  rewrite parse_args_head by (by rewrite ?Hclass).
  destruct (List.find _ _) as [[tok c]|] eqn:Hfind.
  - apply find_ambiguous_elem in Hfind as [Hin Hamb].
    exists (AmbiguousOption tok). split; [done|]. right. eauto.
  - exists (InvalidIntValue d v). split; [|by left].
    rewrite Hclass. cbn [consume].
    assert (store py_int d v defaults = inl (InvalidIntValue d v)) as Hstore.
    { unfold store. rewrite Hv.
      repeat (apply elem_of_cons in Hd as [->|Hd]; [done|]).
      by apply elem_of_nil in Hd. }
    repeat (apply elem_of_cons in Hd as [->|Hd]; [by rewrite Hstore|]).
    by apply elem_of_nil in Hd.
Qed.

(** X15: a long option at the start of the command line may be shortened to
    any prefix that no other option extends, from [--g], [--l], [--d], [--o]
    and [--h] on, and from [--num_s] and [--num_c] on: the command line is
    parsed as with the full name. *)
Theorem option_abbreviations (name p : string) (n : nat) (rest : list string) :
  (name, n) ∈ abbreviations →
  String.prefix p name = true →
  (n ≤ String.length p)%nat →
  parse_args py_int (p :: rest) = parse_args py_int (name :: rest).
Proof.
  intros Hin Hpre Hlen. unfold abbreviations in Hin.
  assert (p ≠ "--"%string ∧ name ≠ "--"%string ∧ classify p = classify name
          ∧ classify name ≠ Ambiguous) as (Hp & Hname & Hc & Hna).
  { repeat (apply elem_of_cons in Hin as [[= -> ->]|Hin]);
      [..|by apply elem_of_nil in Hin];
      prefix_cases p Hpre Hlen;
      (split; [discriminate|]); (split; [discriminate|]);
      (split; [vm_compute; reflexivity|vm_compute; discriminate]). }
  rewrite !parse_args_head by congruence. rewrite Hc.
  destruct (List.find _ _) as [[]|]; [done|]. apply consume_head.
Qed.

(** X16: [--n], [--nu], [--num] and [--num_] abbreviate both [--num_samples]
    and [--num_columns]: wherever one of them stands before a [--], the
    script ends with exit status 2 and reports it as ambiguous, even when a
    string before it is faulty, as long as none before it is ambiguous too. *)
Theorem ambiguous_abbreviation `{Torch} (pre rest : list string) (p : string)
    (w : world) :
  Forall (λ tok, tok ≠ "--"%string ∧ classify tok ≠ Ambiguous) pre →
  String.prefix p "--num_" = true →
  (3 ≤ String.length p)%nat →
  script py_int (pre ++ p :: rest) w
  = (Raise (SystemExit 2), logged w [EArgparseError (AmbiguousOption p)]).
Proof.
  intros Hpre Hp Hlen.
  assert (p ≠ "--"%string ∧ classify p = Ambiguous) as [Hsep Hamb].
  { prefix_cases p Hp Hlen; (split; [discriminate|vm_compute; reflexivity]). }
  unfold script, parse_arguments, parse_args.
  assert (List.find (λ t, match snd t with Ambiguous => true | _ => false end)
            (classify_all (pre ++ p :: rest)) = Some (p, Ambiguous)) as ->.
  { induction Hpre as [|tok pre [Htok Hc] _ IH]; cbn [app classify_all].
    - rewrite (proj2 (String.eqb_neq p "--") Hsep). cbn [List.find snd].
      by rewrite Hamb.
    - rewrite (proj2 (String.eqb_neq tok "--") Htok). cbn [List.find snd].
      by destruct (classify tok). }
  done.
Qed.

End CommandLineOutcomes.

Section CommandLineOutcomeExamples.
Import ShapeModel.

Lemma only_generator_file_witness :
  classify "GAN_GEN_5.pth" = Positional
  ∧ parse_args int_of_decimal ["--generator_file"; "GAN_GEN_5.pth"]%string
    = Parsed {| generator_file := "GAN_GEN_5.pth"; latent_size := 256; depth := 6;
                num_samples := 300; num_columns := None;
                out_dir := "interp_animation_frames/" |}.
Proof.
  split; [reflexivity|].
  apply (only_generator_file int_of_decimal "GAN_GEN_5.pth"). reflexivity.
Defined.

Lemma invalid_int_value_witness :
  "abc"%string ≠ "--"%string
  ∧ int_of_decimal "abc" = None
  ∧ ∃ err,
      script (H := torch []) int_of_decimal
        ["--depth=abc"; "--generator_file"; "GAN_GEN_5.pth"]%string (empty_world [])
      = (Raise (SystemExit 2), logged (empty_world []) [EArgparseError err])
      ∧ (err = InvalidIntValue DDepth "abc"
         ∨ ∃ tok, tok ∈ ["--generator_file"; "GAN_GEN_5.pth"]%string
                  ∧ classify tok = Ambiguous ∧ err = AmbiguousOption tok).
Proof.
  split; [discriminate|]. split; [vm_compute; reflexivity|].
  apply (invalid_int_value (H := torch []) int_of_decimal "--depth" "abc" DDepth
           ["--generator_file"; "GAN_GEN_5.pth"]%string (empty_world [])).
  - unfold option_strings. repeat constructor.
  - repeat constructor.
  - discriminate.
  - vm_compute. reflexivity.
Defined.

Lemma option_abbreviations_witness :
  String.prefix "--gen" "--generator_file" = true
  ∧ parse_args int_of_decimal ["--gen"; "GAN_GEN_5.pth"]%string
    = parse_args int_of_decimal ["--generator_file"; "GAN_GEN_5.pth"]%string.
Proof.
  split; [reflexivity|].
  apply (option_abbreviations int_of_decimal "--generator_file" "--gen" 3
           ["GAN_GEN_5.pth"]%string).
  - unfold abbreviations. repeat constructor.
  - reflexivity.
  - simpl. lia.
Defined.

Lemma ambiguous_abbreviation_witness :
  String.prefix "--num" "--num_" = true
  ∧ script (H := torch []) int_of_decimal ["--depth=abc"; "--num"; "1"]%string
      (empty_world [])
    = (Raise (SystemExit 2),
       logged (empty_world []) [EArgparseError (AmbiguousOption "--num")]).
Proof.
  split; [reflexivity|].
  apply (ambiguous_abbreviation (H := torch []) int_of_decimal
           ["--depth=abc"]%string ["1"]%string "--num" (empty_world [])).
  - repeat constructor; vm_compute; discriminate.
  - reflexivity.
  - simpl. lia.
Defined.

End CommandLineOutcomeExamples.

(** ** What a run prints, and how it can fail *)

Section Output.
Context `{Torch}.

Lemma printed_app (tr1 tr2 : list event) :
  printed (tr1 ++ tr2) = printed tr1 ++ printed tr2.
Proof. unfold printed. apply omap_app. Qed.

Lemma silent_ret {A} (a : A) : silent (mret a).
Proof. by intros w r w' [= <- <-]. Qed.

Lemma silent_lift {A} (r : result A) : silent (lift r).
Proof. by intros w r' w' [= <- <-]. Qed.

Lemma silent_bind {A B} (m : M A) (f : A → M B) :
  silent m → (∀ a, silent (f a)) → silent (m ≫= f).
Proof.
  intros Hm Hf w r w' Hr.
  apply bind_inv in Hr as [(a & w1 & Hma & Hfa)|(e & Hme & ->)].
  - rewrite (Hf _ _ _ _ Hfa). by eapply Hm.
  - by eapply Hm.
Qed.

Lemma silent_for_each {A} (xs : list A) (body : A → M unit) :
  (∀ x, silent (body x)) → silent (for_each xs body).
Proof.
  intros Hbody. induction xs as [|x xs IH]; simpl; [apply silent_ret|].
  apply silent_bind; [apply Hbody|done].
Qed.

Lemma silent_log (ev : event) :
  (∀ line, ev ≠ EPrint line) → silent (log ev).
Proof.
  intros Hev w r w' [= <- <-]. simpl. rewrite printed_app.
  destruct ev; simpl; try by rewrite app_nil_r. by destruct (Hev line).
Qed.

Lemma silent_raise {A} (e : exn) : silent (raise (A := A) e).
Proof. by intros w r w' [= <- <-]. Qed.

Lemma silent_new_list l : silent (new_list l).
Proof. by intros w r w' [= <- <-]. Qed.

Lemma silent_read_list ℓ : silent (read_list ℓ).
Proof. intros w r w'. unfold read_list. by destruct (heap w !! ℓ); intros [= <- <-]. Qed.

Lemma silent_write_list ℓ l : silent (write_list ℓ l).
Proof. by intros w r w' [= <- <-]. Qed.

Lemma silent_call_randn n : silent (call_randn n).
Proof.
  intros w r w'. unfold call_randn. destruct (randn n (rng w)) as [r' g].
  intros [= <- <-]. simpl. rewrite printed_app. simpl. by rewrite app_nil_r.
Qed.

Lemma silent_imsave path img : silent (imsave path img).
Proof.
  intros w r w'. unfold imsave. destruct (writable path); intros [= <- <-]; [|done].
  simpl. rewrite printed_app. simpl. by rewrite app_nil_r.
Qed.

Ltac silent_steps := intros; repeat (first
  [ apply silent_ret | apply silent_raise | apply silent_lift
  | apply silent_new_list | apply silent_read_list | apply silent_write_list
  | apply silent_call_randn | apply silent_imsave
  | apply silent_log; intros; discriminate
  | apply silent_for_each; intros ?
  | apply silent_bind; [|intros ?]
  | match goal with |- silent (match ?x with _ => _ end) => destruct x end ]).

Lemma silent_sample_iteration args gen save_path img_num :
  silent (sample_iteration args gen save_path img_num).
Proof.
  unfold sample_iteration, render, sample_latent, call_gen, progressive_upscaling,
    upscale_body, squeeze_all, compose_grid, call_make_grid, call_interpolate,
    len, getitem, setitem.
  silent_steps.
Qed.

(** X17: what [main] prints, whatever its outcome, is an initial part of its
    four messages, in order, and nothing else: the summary line is printed
    exactly when the run completes, and only the first message when the
    generator cannot be constructed. *)
Theorem main_output (args : Args) (r : result unit) (w w' : world) :
  main args w = (r, w') →
  ∃ k : nat,
    (1 ≤ k ≤ 4)%nat
    ∧ printed (trace w') = printed (trace w) ++ take k (messages args)
    ∧ (r = Ok () ↔ k = 4%nat)
    ∧ (k = 1%nat ↔ ∃ e, Generator (depth args) (latent_size args) = Raise e).
Proof.
  intros Hmain.
  apply main_inv in Hmain
    as [(e & -> & Hload)|(g & ws & r1 & w1 & Hload & Hloop & Hr)].
  - rewrite load_generator_exact in Hload.
    destruct (Generator _ _) as [g|e'] eqn:Hgen; injection Hload as Hl <-.
    + exists 2%nat. split; [lia|]. simpl. rewrite printed_app. split; [done|].
      split; [done|]. split; [done|]. by intros [? ?].
    + exists 1%nat. split; [lia|]. simpl. rewrite printed_app. split; [done|].
      split; [done|]. split; [|done]. intros _. by exists e'.
  - rewrite load_generator_exact in Hload.
    destruct (Generator _ _) as [g0|e'] eqn:Hgen; [|done].
    injection Hload as Hl <-.
    assert (silent (sample_loop args g (out_dir args))) as Hsilent
      by (apply silent_for_each; intros i; apply silent_sample_iteration).
    apply Hsilent in Hloop. simpl in Hloop. rewrite !printed_app in Hloop.
    simpl in Hloop.
    destruct r1 as [[]|e]; destruct Hr as [-> ->].
    + exists 4%nat. split; [lia|]. simpl. rewrite printed_app, Hloop. simpl.
      rewrite <- !app_assoc. split; [done|]. split; [done|]. split; [done|].
      by intros [? ?].
    + exists 3%nat. split; [lia|]. rewrite Hloop. simpl.
      rewrite <- !app_assoc. split; [done|]. split; [done|]. split; [done|].
      by intros [? ?].
Qed.

Lemma for_each_raise_first {A} (xs : list A) (body : A → M unit) w e w' :
  for_each xs body w = (Raise e, w') →
  ∃ (k : nat) x w1,
    xs !! k = Some x
    ∧ for_each (take k xs) body w = (Ok (), w1)
    ∧ body x w1 = (Raise e, w').
Proof.
  revert w. induction xs as [|x xs IH]; intros w Hr; simpl in Hr; [done|].
  apply bind_inv in Hr as [([] & w1 & Hx & Hrest)|(e' & Hx & [= <-])].
  - destruct (IH _ Hrest) as (k & y & w2 & Hy & Hdone & Hbody).
    exists (S k), y, w2. split; [done|]. split; [|done].
    simpl. by rewrite (bind_run _ _ _ _ _ Hx).
  - exists 0%nat, x, w. done.
Qed.

Lemma iteration_failure_cause args gen save_path img_num e (w w' : world) :
  sample_iteration args gen save_path img_num w = (Raise e, w') →
  iteration_failure args gen save_path img_num w e.
Proof.
  intros Hr. unfold sample_iteration in Hr.
  apply bind_inv in Hr as [(img & w1 & Hrender & Hsave)|(e0 & Hr & [= <-])].
  { unfold imsave in Hsave. destruct (writable _) eqn:Hw; [done|].
    injection Hsave as <- <-.
    apply render_ok_inv in Hrender
      as (v & g & imgs & ys & grid & Hdraw & Hn & Hfwd & Hlen & Hys & Hgrid & Hperm & _).
    by eapply (SaveFailed _ _ _ _ _ _ v g imgs ys grid img). }
  unfold render in Hr.
  apply bind_inv in Hr as [(points & w1 & Hlatent & Hr)|(e1 & Hlatent & [= <-])].
  2:{ unfold sample_latent, call_randn, py_sqrt, lift, mbind, M_bind in Hlatent.
      destruct (randn _ _) as [[v|e'] g] eqn:Hdraw.
      - case_bool_decide; [|done]. injection Hlatent as <- <-.
        by eapply SqrtFailed.
      - injection Hlatent as <- <-. by eapply DrawFailed. }
  apply sample_latent_ok_inv in Hlatent as (v & g & Hdraw & Hn & -> & ->).
  apply bind_inv in Hr as [(ℓ1 & w2 & Hgen & Hr)|(e2 & Hgen & [= <-])].
  2:{ unfold call_gen, log, lift, new_list, mbind, M_bind in Hgen.
      destruct (forward gen _) as [imgs|e'] eqn:Hfwd; [done|].
      injection Hgen as <- <-. by eapply InferenceFailed. }
  apply call_gen_ok_inv in Hgen as (imgs & Hfwd & -> & ->).
  apply bind_inv in Hr as [(ℓ & w3 & Hup & Hr)|(e3 & Hup & [= <-])].
  2:{ apply (progressive_upscaling_exact _ imgs) in Hup
        as (m & cur & Hm & _ & Hlen & _ & _ & Hok & Hmk & x & Hx & He);
        [|simpl; apply lookup_insert_eq].
      eapply (InterpolateFailed _ _ _ _ _ _ v g imgs (1 + m) x);
        [done|done|done|lia| |done|done].
      intros f Hf.
      destruct (lookup_lt_is_Some_2 imgs (length imgs - 1 - f)) as [x' Hx'];
        [lia|].
      destruct (lookup_lt_is_Some_2 cur (length imgs - 1 - f)) as [y' Hy'];
        [lia|].
      exists x', y'. split; [done|].
      assert (length imgs - (1 + m) ≤ length imgs - 1 - f < length imgs - 1)%nat
        as Hrange by lia.
      pose proof (Hok _ _ _ Hrange Hx' Hy') as Hy.
      by replace (length imgs - 1 - (length imgs - 1 - f))%nat with f in Hy by lia. }
  apply (progressive_upscaling_ok_inv _ imgs) in Hup
    as (-> & ys & Hlen & Hys & ->); [|simpl; apply lookup_insert_eq].
  simpl in Hr. rewrite insert_insert_eq in Hr.
  erewrite bind_run in Hr;
    [|apply (squeeze_all_run _ ys); simpl; apply lookup_insert_eq].
  simpl in Hr.
  erewrite bind_eq in Hr;
    [|apply (compose_grid_run args _ (squeeze0 <$> ys)); simpl;
      apply lookup_insert_eq].
  rewrite length_fmap, Hlen in Hr.
  destruct (make_grid _ _) as [grid|e'] eqn:Hgrid.
  - unfold lift in Hr. destruct (permute_cpu grid) as [img|e'] eqn:Hperm; [done|].
    injection Hr as <- <-. by eapply (PermuteFailed _ _ _ _ _ _ v g imgs ys grid).
  - injection Hr as <- <-. by eapply (MakeGridFailed _ _ _ _ _ _ v g imgs ys).
Qed.

(** The loop raises at the first factor whose call fails. *)
Lemma progressive_upscaling_raises (images : loc) (l : list tensor) (factor : nat)
    x e (w : world) :
  heap w !! images = Some l →
  (1 ≤ factor ≤ length l - 1)%nat →
  (∀ f, (1 ≤ f < factor)%nat →
     ∃ x' y', l !! (length l - 1 - f)%nat = Some x'
              ∧ interpolate x' (2 ^ Z.of_nat f) = Ok y') →
  l !! (length l - 1 - factor)%nat = Some x →
  interpolate x (2 ^ Z.of_nat factor) = Raise e →
  ∃ w', progressive_upscaling images w = (Raise e, w').
Proof.
  intros Hheap Hfactor Hbefore Hx He.
  destruct (progressive_upscaling images w) as [r w'] eqn:Hrun.
  apply (progressive_upscaling_exact images l) in Hrun
    as (m & cur & Hm & _ & Hlen & _ & _ & Hok & Hr); [|done].
  exists w'. destruct r as [ℓ|e'].
  - destruct Hr as [_ ->].
    destruct (lookup_lt_is_Some_2 cur (length l - 1 - factor)) as [y Hy]; [lia|].
    assert (length l - (1 + (length l - 1)) ≤ length l - 1 - factor < length l - 1)%nat
      as Hrange by lia.
    pose proof (Hok _ _ _ Hrange Hx Hy) as Hy'.
    replace (length l - 1 - (length l - 1 - factor))%nat with factor in Hy' by lia.
    congruence.
  - destruct Hr as (Hmk & x0 & Hx0 & He0).
    destruct (lt_eq_lt_dec (1 + m) factor) as [[Hlt|Heq]|Hgt].
    + destruct (Hbefore (1 + m)%nat) as (x' & y' & Hx' & Hy'); [lia|]. congruence.
    + rewrite Heq in *. congruence.
    + destruct (lookup_lt_is_Some_2 cur (length l - 1 - factor)) as [y Hy]; [lia|].
      assert (length l - (1 + m) ≤ length l - 1 - factor < length l - 1)%nat
        as Hrange by lia.
      pose proof (Hok _ _ _ Hrange Hx Hy) as Hy'.
      replace (length l - 1 - (length l - 1 - factor))%nat with factor in Hy' by lia.
      congruence.
Qed.

Lemma iteration_failure_raises args gen save_path img_num e (w : world) :
  iteration_failure args gen save_path img_num w e →
  ∃ w', sample_iteration args gen save_path img_num w = (Raise e, w').
Proof.
  intros [g Hdraw|v g Hdraw Hn ->|v g Hdraw Hn Hfwd
          |v g imgs factor x Hdraw Hn Hfwd Hfactor Hbefore Hx He
          |v g imgs ys Hdraw Hn Hfwd Hlen Hys Hgrid
          |v g imgs ys grid Hdraw Hn Hfwd Hlen Hys Hgrid Hperm
          |v g imgs ys grid img Hdraw Hn Hfwd Hlen Hys Hgrid Hperm Hw ->].
  - eexists. apply bind_raise, bind_raise.
    unfold sample_latent, call_randn, mbind, M_bind. by rewrite Hdraw.
  - eexists. apply bind_raise, bind_raise.
    unfold sample_latent, call_randn, py_sqrt, lift, mbind, M_bind.
    rewrite Hdraw. by rewrite bool_decide_eq_true_2 by done.
  - eexists. apply bind_raise. unfold render.
    rewrite (bind_run _ _ _ _ _ (sample_latent_run args w v g Hdraw Hn)).
    apply bind_raise. unfold call_gen, log, lift, new_list, mbind, M_bind.
    simpl. by rewrite Hfwd.
  - pose proof (sample_latent_run args w v g Hdraw Hn) as Hlatent.
    match type of Hlatent with _ = (_, ?w1) =>
      pose proof (call_gen_run gen _ imgs w1 Hfwd) as Hgen
    end.
    match type of Hgen with _ = (Ok ?ℓ, ?w2) =>
      destruct (progressive_upscaling_raises ℓ imgs factor x e w2) as [w' Hraise];
        [simpl; apply lookup_insert_eq|done|done|done|done|]
    end.
    exists w'. apply bind_raise. unfold render.
    rewrite (bind_run _ _ _ _ _ Hlatent), (bind_run _ _ _ _ _ Hgen).
    by apply bind_raise.
  - eexists. apply bind_raise. unfold render.
    rewrite (bind_run _ _ _ _ _ (sample_latent_run args w v g Hdraw Hn)).
    rewrite (bind_run _ _ _ _ _ (call_gen_run gen _ imgs _ Hfwd)). simpl.
    erewrite bind_run;
      [|apply (progressive_upscaling_run _ imgs ys Hlen Hys); simpl;
        apply lookup_insert_eq].
    simpl. rewrite insert_insert_eq.
    erewrite bind_run; [|apply (squeeze_all_run _ ys); simpl; apply lookup_insert_eq].
    simpl. apply bind_raise.
    rewrite (compose_grid_run args _ (squeeze0 <$> ys)) by (simpl; apply lookup_insert_eq).
    rewrite length_fmap, Hlen, Hgrid. reflexivity.
  - eexists. apply bind_raise. unfold render.
    rewrite (bind_run _ _ _ _ _ (sample_latent_run args w v g Hdraw Hn)).
    rewrite (bind_run _ _ _ _ _ (call_gen_run gen _ imgs _ Hfwd)). simpl.
    erewrite bind_run;
      [|apply (progressive_upscaling_run _ imgs ys Hlen Hys); simpl;
        apply lookup_insert_eq].
    simpl. rewrite insert_insert_eq.
    erewrite bind_run; [|apply (squeeze_all_run _ ys); simpl; apply lookup_insert_eq].
    simpl.
    erewrite bind_run;
      [|rewrite (compose_grid_run args _ (squeeze0 <$> ys))
          by (simpl; apply lookup_insert_eq);
        rewrite length_fmap, Hlen, Hgrid; reflexivity].
    unfold lift. by rewrite Hperm.
  - eexists. unfold sample_iteration.
    rewrite (bind_run _ _ _ _ _
               (render_run args gen w v g imgs ys grid img
                  Hdraw Hn Hfwd Hlen Hys Hgrid Hperm)).
    unfold imsave. by rewrite Hw.
Qed.

(** X18: the sample loop raises [e] exactly when, in some iteration [i]
    reached after the iterations before it completed, one of the calls the
    iteration makes raises [e] on the arguments the iteration gives it, after
    every call before it returned: the draw, the square root of a negative
    latent size, the generator on the rescaled draw, [interpolate] for the
    first factor that fails, [make_grid] on the squeezed images, the
    permutation of the grid, or the writing of the file; the list indexing
    of the script itself never fails. *)
Theorem sample_loop_failure_cause (args : Args) (gen : generator)
    (save_path : string) (e : exn) (w : world) :
  (∃ w', sample_loop args gen save_path w = (Raise e, w'))
  ↔ ∃ (i : Z) (wi : world),
      1 ≤ i ≤ num_samples args
      ∧ for_each (py_range 1 i) (sample_iteration args gen save_path) w = (Ok (), wi)
      ∧ iteration_failure args gen save_path i wi e.
Proof.
  unfold sample_loop. split.
  - intros [w' Hloop].
    apply for_each_raise_first in Hloop as (k & i & wi & Hi & Hdone & Hbody).
    apply lookup_lt_Some in Hi as Hk. rewrite py_range_length in Hk.
    rewrite take_py_range in Hdone by lia.
    unfold py_range in Hi. rewrite list_lookup_fmap, lookup_seq_lt in Hi by lia.
    injection Hi as <-.
    exists (1 + Z.of_nat k), wi. split; [lia|]. split; [done|].
    by eapply iteration_failure_cause.
  - intros (i & wi & Hi & Hdone & Hfail).
    apply iteration_failure_raises in Hfail as [w' Hfail]. exists w'.
    rewrite (py_range_split 1 i (num_samples args + 1)) by lia.
    rewrite (py_range_cons i) by lia.
    by apply (for_each_raise _ _ _ _ _ wi).
Qed.

End Output.

Section OutputExamples.
Import ShapeModel.

Lemma main_output_witness :
  ∃ w', main (H := torch []) sample_args (empty_world []) = (Ok (), w')
        ∧ printed (trace w')
          = [ "Creating generator object ...";
              "Loading the generator weights from: GAN_GEN_5.pth";
              "Generating scale synchronized images ...";
              "Generated 2 images at out/" ]%string.
Proof.
  destruct (main (H := torch []) sample_args (empty_world [])) as [r w'] eqn:Hmain.
  assert (r = Ok ()) as ->.
  { change r with (fst (r, w')). rewrite <- Hmain. vm_compute. reflexivity. }
  exists w'. split; [reflexivity|].
  destruct (main_output (H := torch []) sample_args (Ok ()) (empty_world []) w' Hmain)
    as (k & _ & Hprinted & Hok & _).
  rewrite (proj1 Hok eq_refl) in Hprinted. exact Hprinted.
Defined.

Lemma sample_loop_failure_cause_witness :
  ∃ w' i wi,
    sample_loop (H := torch ["out/2.png"%string]) sample_args 3 "out/"
      (empty_world ["out/2.png"%string])
    = (Raise (IOError "out/2.png"), w')
    ∧ 1 ≤ i ≤ num_samples sample_args
    ∧ for_each (py_range 1 i)
        (sample_iteration (H := torch ["out/2.png"%string]) sample_args 3 "out/")
        (empty_world ["out/2.png"%string]) = (Ok (), wi)
    ∧ iteration_failure (H := torch ["out/2.png"%string]) sample_args 3 "out/" i wi
        (IOError "out/2.png").
Proof.
  destruct (sample_loop (H := torch ["out/2.png"%string]) sample_args 3 "out/"
              (empty_world ["out/2.png"%string])) as [r w'] eqn:Hloop.
  assert (r = Raise (IOError "out/2.png")) as ->.
  { change r with (fst (r, w')). rewrite <- Hloop. vm_compute. reflexivity. }
  destruct (proj1 (sample_loop_failure_cause (H := torch ["out/2.png"%string])
                     sample_args 3 "out/" (IOError "out/2.png")
                     (empty_world ["out/2.png"%string])))
    as (i & wi & Hi & Hdone & Hfail); [by exists w'|].
  exists w', i, wi. split; [reflexivity|]. split; [exact Hi|].
  split; [exact Hdone|exact Hfail].
Defined.

End OutputExamples.
